(** * Music League bot: reminder scheduling and persistence

    A shallow embedding of the reminder subsystem of the bot:
    - [storage]   the JSON file store of storage.js,
    - [scheduler] the timer engine and registry of scheduler.js,
    - [bot]       the [/remind] command handler of bot.js.

    Conventions of the embedding.
    - A timestamp is the number of milliseconds since the epoch, as an
      integer: the ISO string that [toISOString] writes into a record and
      that [new Date(...).getTime()] reads back denotes exactly that number.
    - The system clock, the random UUID source, the outcome of a delivery and
      the moment at which the event loop runs a timeout are inputs of the
      environment.  The clock is an oracle held in the world: its [n]-th
      reading is [clock w n].
    - [reminders.json] is an array of entries; an entry is either the
      serialisation of a reminder record, as [saveReminders] writes it, or
      text that does not parse.  [JSON.parse] works on the document as a
      whole: one malformed entry makes it throw.  A document that parses
      but holds something else than records is outside [file]; for [null]
      in place of a record see [restore_values].
    - Handlers and timeout callbacks run one at a time.  The functions of
      [scheduler] and [bot] are single calls; [react] is the event loop, in
      which the delivery closure is suspended at its [await]s. *)

From stdpp Require Import gmap strings list fin_maps.
From Stdlib Require Import Ascii.

Open Scope Z_scope.

(** ** Data model *)

(** The object built by [scheduler.addReminder]: [{ id, ...opts }]. *)
Record reminder := {
  id : string;
  guildId : string;
  channelId : string;
  type : string;
  deadline : Z;
  remindAt : Z;
  label : string;
  emoji : string;
}.

#[global] Instance reminder_eq_dec : EqDecision reminder.
Proof. solve_decision. Defined.

(** The [opts] argument of [scheduler.addReminder], as bot.js builds it. *)
Record opts := {
  o_guildId : string;
  o_channelId : string;
  o_type : string;
  o_deadline : Z;
  o_remindAt : Z;
  o_label : string;
  o_emoji : string;
}.

(** One element of the array in [reminders.json]: a reminder record, or
    text that makes [JSON.parse] throw. *)
Inductive entry :=
  | Rec (r : reminder)
  | Malformed (text : string).

#[global] Instance entry_eq_dec : EqDecision entry.
Proof. solve_decision. Defined.

(** The file [data/reminders.json]. *)
Inductive file :=
  | Absent
  | Content (es : list entry).

#[global] Instance file_eq_dec : EqDecision file.
Proof. solve_decision. Defined.

(** The part of a guild's configuration that the reminder code reads. *)
Record guildConfig := {
  notifyChannelId : option string;
  leagueUrl : option string;
}.

(** What a pending timeout runs when it expires: the two closures that
    [scheduleTimer] passes to [setTimeout]. *)
Inductive callback :=
  | Reschedule (r : reminder)
  | Deliver (r : reminder).

Record timer := {
  t_delay : Z;
  t_callback : callback;
}.

Definition callback_reminder (c : callback) : reminder :=
  match c with Reschedule r | Deliver r => r end.

(** How the [try] block of the delivery closure ends. *)
Inductive outcome :=
  | Sent
  | NoChannel
  | Threw (message : string).

(** Lines written to the console by the scheduler. *)
Inductive log_line :=
  | LogFailed (rid : string) (message : string)
  | LogRestored (restored expired : nat).

Record world := {
  reminders_json : file;
  guilds_json : gmap string guildConfig;
  activeTimers : gmap string nat;
  timeouts : gmap nat timer;
  next_handle : nat;
  clock : nat → Z;
  ticks : nat;
  attempts : list (reminder * outcome);
  console : list log_line;
}.

Definition set_reminders_json (f : file) (w : world) : world :=
  {| reminders_json := f; guilds_json := guilds_json w;
     activeTimers := activeTimers w; timeouts := timeouts w;
     next_handle := next_handle w; clock := clock w; ticks := ticks w;
     attempts := attempts w; console := console w |}.

Definition set_activeTimers (m : gmap string nat) (w : world) : world :=
  {| reminders_json := reminders_json w; guilds_json := guilds_json w;
     activeTimers := m; timeouts := timeouts w;
     next_handle := next_handle w; clock := clock w; ticks := ticks w;
     attempts := attempts w; console := console w |}.

Definition set_timeouts (m : gmap nat timer) (w : world) : world :=
  {| reminders_json := reminders_json w; guilds_json := guilds_json w;
     activeTimers := activeTimers w; timeouts := m;
     next_handle := next_handle w; clock := clock w; ticks := ticks w;
     attempts := attempts w; console := console w |}.

Definition set_next_handle (n : nat) (w : world) : world :=
  {| reminders_json := reminders_json w; guilds_json := guilds_json w;
     activeTimers := activeTimers w; timeouts := timeouts w;
     next_handle := n; clock := clock w; ticks := ticks w;
     attempts := attempts w; console := console w |}.

Definition set_ticks (n : nat) (w : world) : world :=
  {| reminders_json := reminders_json w; guilds_json := guilds_json w;
     activeTimers := activeTimers w; timeouts := timeouts w;
     next_handle := next_handle w; clock := clock w; ticks := n;
     attempts := attempts w; console := console w |}.

Definition set_attempts (l : list (reminder * outcome)) (w : world) : world :=
  {| reminders_json := reminders_json w; guilds_json := guilds_json w;
     activeTimers := activeTimers w; timeouts := timeouts w;
     next_handle := next_handle w; clock := clock w; ticks := ticks w;
     attempts := l; console := console w |}.

Definition set_console (l : list log_line) (w : world) : world :=
  {| reminders_json := reminders_json w; guilds_json := guilds_json w;
     activeTimers := activeTimers w; timeouts := timeouts w;
     next_handle := next_handle w; clock := clock w; ticks := ticks w;
     attempts := attempts w; console := l |}.

Definition set_guilds_json (m : gmap string guildConfig) (w : world) : world :=
  {| reminders_json := reminders_json w; guilds_json := m;
     activeTimers := activeTimers w; timeouts := timeouts w;
     next_handle := next_handle w; clock := clock w; ticks := ticks w;
     attempts := attempts w; console := console w |}.

(** ** Host primitives *)

(** [Date.now()] and [new Date()]: the next reading of the clock. *)
Definition Date_now (w : world) : Z * world :=
  (clock w (ticks w), set_ticks (S (ticks w)) w).

(** [setTimeout(cb, delay)]: a fresh handle for a pending timeout. *)
Definition setTimeout (cb : callback) (delay : Z) (w : world) : nat * world :=
  let h := next_handle w in
  (h, set_next_handle (S h)
        (set_timeouts (<[h := {| t_delay := delay; t_callback := cb |}]> (timeouts w)) w)).

(** [clearTimeout(handle)]. *)
Definition clearTimeout (h : nat) (w : world) : world :=
  set_timeouts (delete h (timeouts w)) w.

(** ** storage.js *)

Module storage.

Definition parse_entry (e : entry) : option reminder :=
  match e with
  | Rec r => Some r
  | Malformed _ => None
  end.

(** [JSON.parse] of the array: every entry parses, or the call throws. *)
Fixpoint JSON_parse (es : list entry) : option (list reminder) :=
  match es with
  | [] => Some []
  | e :: es' =>
      match parse_entry e, JSON_parse es' with
      | Some r, Some l => Some (r :: l)
      | _, _ => None
      end
  end.

Definition JSON_stringify (l : list reminder) : list entry :=
  Rec <$> l.

(** [try { return JSON.parse(fs.readFileSync(...)) } catch { return [] }] *)
Definition loadReminders (f : file) : list reminder :=
  match f with
  | Absent => []
  | Content es =>
      match JSON_parse es with
      | Some l => l
      | None => []
      end
  end.

Definition saveReminders (l : list reminder) : file :=
  Content (JSON_stringify l).

Definition addReminder (r : reminder) (f : file) : file :=
  let reminders := loadReminders f in
  saveReminders (reminders ++ [r]).

Definition removeReminder (i : string) (f : file) : file :=
  let reminders := loadReminders f in
  let filtered := filter (λ r, id r ≠ i) reminders in
  saveReminders filtered.

Definition getRemindersForGuild (g : string) (f : file) : list reminder :=
  filter (λ r, guildId r = g) (loadReminders f).

Definition getAllReminders (f : file) : list reminder :=
  loadReminders f.

(** [configs[guildId] || null] *)
Definition getGuildConfig (g : string) (w : world) : option guildConfig :=
  guilds_json w !! g.

(** [{ ...(configs[guildId] || {}), ...updates }] on the keys of
    [guildConfig]: a key present in [updates] replaces the stored one, the
    other keys stay. *)
Definition spread (old updates : guildConfig) : guildConfig :=
  {| notifyChannelId :=
       match notifyChannelId updates with
       | Some c => Some c
       | None => notifyChannelId old
       end;
     leagueUrl :=
       match leagueUrl updates with
       | Some u => Some u
       | None => leagueUrl old
       end |}.

(** [guilds_json] is what [loadConfigs] returns (the empty object when the
    file is missing or does not parse); [saveConfigs] replaces it.  Guild
    ids are Discord snowflakes, so no key names a property of
    [Object.prototype]. *)
Definition setGuildConfig (g : string) (updates : guildConfig) (w : world)
    : guildConfig * world :=
  let configs := guilds_json w in
  let c :=
    spread (default {| notifyChannelId := None; leagueUrl := None |} (configs !! g))
      updates in
  (c, set_guilds_json (<[g := c]> configs) w).

End storage.

(** ** scheduler.js *)

Module scheduler.

Section timer_engine.

(** [const MAX_DELAY = 2147483647] in the source; kept as a parameter so
    that the chaining can also be run with a small ceiling. *)
Variable MAX_DELAY : Z.

(** The [finally] block of the delivery closure. *)
Definition finally_block (r : reminder) (w : world) : world :=
  let w := set_reminders_json (storage.removeReminder (id r) (reminders_json w)) w in
  set_activeTimers (delete (id r) (activeTimers w)) w.

Definition scheduleTimer (r : reminder) (w : world) : world :=
  let '(now, w) := Date_now w in
  let fireAt := remindAt r in
  let delay := fireAt - now in
  if decide (delay ≤ 0) then
    let w := set_reminders_json (storage.removeReminder (id r) (reminders_json w)) w in
    set_activeTimers (delete (id r) (activeTimers w)) w
  else if decide (delay > MAX_DELAY) then
    let '(handle, w) := setTimeout (Reschedule r) MAX_DELAY w in
    set_activeTimers (<[id r := handle]> (activeTimers w)) w
  else
    let '(handle, w) := setTimeout (Deliver r) delay w in
    set_activeTimers (<[id r := handle]> (activeTimers w)) w.

(** The [try]/[catch] of the delivery closure: the channel is fetched
    (one delivery attempt); the message is sent, or there is no such
    channel, or something throws and the message is logged. *)
Definition try_block (r : reminder) (o : outcome) (w : world) : world :=
  let w := set_attempts (attempts w ++ [(r, o)]) w in
  match o with
  | Sent | NoChannel => w
  | Threw m => set_console (console w ++ [LogFailed (id r) m]) w
  end.

Definition run_callback (c : callback) (o : outcome) (w : world) : world :=
  match c with
  | Reschedule r => scheduleTimer r w
  | Deliver r => finally_block r (try_block r o w)
  end.

(** The event loop runs the pending timeout [h]: it leaves the set of
    pending timeouts and its callback runs.  [None] when [h] is not
    pending (it fired already or was cleared).  The delivery closure is
    run here in one piece, as when nothing else happens while its requests
    are under way; [react] splits it at its [await]s. *)
Definition fire (h : nat) (o : outcome) (w : world) : option world :=
  match timeouts w !! h with
  | None => None
  | Some t => Some (run_callback (t_callback t) o (clearTimeout h w))
  end.

Definition make_reminder (i : string) (o : opts) : reminder :=
  {| id := i; guildId := o_guildId o; channelId := o_channelId o;
     type := o_type o; deadline := o_deadline o; remindAt := o_remindAt o;
     label := o_label o; emoji := o_emoji o |}.

(** [uuid] is the value returned by [randomUUID()]. *)
Definition addReminder (uuid : string) (o : opts) (w : world) : string * world :=
  let i := String.substring 0 8 uuid in
  let r := make_reminder i o in
  let w := set_reminders_json (storage.addReminder r (reminders_json w)) w in
  let w := scheduleTimer r w in
  (i, w).

Definition cancelReminder (g : string) (i : string) (w : world) : bool * world :=
  let reminders := storage.getRemindersForGuild g (reminders_json w) in
  match List.find (λ r, bool_decide (id r = i)) reminders with
  | None => (false, w)
  | Some _ =>
      let w :=
        match activeTimers w !! i with
        | Some h => set_activeTimers (delete i (activeTimers w)) (clearTimeout h w)
        | None => w
        end in
      let w := set_reminders_json (storage.removeReminder i (reminders_json w)) w in
      (true, w)
  end.

Definition getReminders (g : string) (w : world) : list reminder * world :=
  let '(now, w) := Date_now w in
  (filter (λ r, remindAt r > now) (storage.getRemindersForGuild g (reminders_json w)), w).

(** The body of the [for] loop of [restoreReminders], with the two
    counters. *)
Definition restore_step (now : Z) (st : nat * nat * world) (r : reminder)
  : nat * nat * world :=
  let '(restored, expired, w) := st in
  if decide (remindAt r ≤ now) then
    (restored, S expired,
     set_reminders_json (storage.removeReminder (id r) (reminders_json w)) w)
  else
    (S restored, expired, scheduleTimer r w).

(** [restoreReminders] has no [return]: its result is [undefined]
    (here [tt]); the counts go to the console. *)
Definition restoreReminders (w : world) : unit * world :=
  let all := storage.getAllReminders (reminders_json w) in
  let '(now, w) := Date_now w in
  let '(restored, expired, w) := foldl (restore_step now) (0%nat, 0%nat, w) all in
  (tt, set_console (console w ++ [LogRestored restored expired]) w).

End timer_engine.

(** The ceiling used by the source, about 24.8 days. *)
Definition MAX_DELAY : Z := 2147483647.

End scheduler.

(** ** scraper.js: the parts that work on text

    A JavaScript string is taken as the sequence of its characters; the
    functions below only look for ASCII characters and return pieces of the
    text, never positions. *)

Module scraper.

(** [s] with the prefix [pat] removed, when it starts with [pat]. *)
Fixpoint strip_prefix (pat s : string) : option string :=
  match pat with
  | EmptyString => Some s
  | String a pat' =>
      match s with
      | EmptyString => None
      | String b s' => if decide (a = b) then strip_prefix pat' s' else None
      end
  end.

(** [s.includes(pat)] *)
Fixpoint includes (pat s : string) : bool :=
  match strip_prefix pat s with
  | Some _ => true
  | None =>
      match s with
      | EmptyString => false
      | String _ s' => includes pat s'
      end
  end.

(** [s.endsWith(pat)] *)
Fixpoint endsWith (pat s : string) : bool :=
  match s with
  | EmptyString => bool_decide (pat = EmptyString)
  | String _ s' => bool_decide (s = pat) || endsWith pat s'
  end.

(** The character class [[a-f0-9]]. *)
Definition is_hex (c : ascii) : bool :=
  let n := nat_of_ascii c in
  ((48 <=? n)%nat && (n <=? 57)%nat) || ((97 <=? n)%nat && (n <=? 102)%nat).

(** [[a-f0-9]{n}] at the start of [s]: the text matched and what follows. *)
Fixpoint hex_run (n : nat) (s : string) : option (string * string) :=
  match n with
  | O => Some (EmptyString, s)
  | S n' =>
      match s with
      | EmptyString => None
      | String c s' =>
          if is_hex c then
            match hex_run n' s' with
            | Some (matched, rest) => Some (String c matched, rest)
            | None => None
            end
          else None
      end
  end.

(** The pattern [/\/l\/([a-f0-9]{32})\//] at the start of [s]: its group. *)
Definition league_id_at (s : string) : option string :=
  match strip_prefix "/l/" s with
  | None => None
  | Some rest =>
      match hex_run 32 rest with
      | None => None
      | Some (i, rest') =>
          match strip_prefix "/" rest' with
          | Some _ => Some i
          | None => None
          end
      end
  end.

(** [url.match(...)] takes the leftmost position at which the pattern
    matches; [null] is [None]. *)
Fixpoint extractLeagueId (url : string) : option string :=
  match league_id_at url with
  | Some i => Some i
  | None =>
      match url with
      | EmptyString => None
      | String _ rest => extractLeagueId rest
      end
  end.

(** The start of [fetchLeague], up to its first request: the error it
    throws, or the [base] of the three addresses it requests. *)
Definition fetchLeague_base (url : string) : string + string :=
  let url := if endsWith "/" url then url else url +:+ "/" in
  match extractLeagueId url with
  | None => inl "Could not extract league ID from URL."
  | Some leagueId => inr ("https://app.musicleague.com/l/" +:+ leagueId)
  end.

(** The start of [fetchRounds]: the error, or the address requested. *)
Definition fetchRounds_address (url : string) : string + string :=
  let url := if endsWith "/" url then url else url +:+ "/" in
  match extractLeagueId url with
  | None => inl "Could not extract league ID."
  | Some leagueId => inr ("https://app.musicleague.com/l/" +:+ leagueId +:+ "/-/rounds")
  end.

(** [s.replace(/pat/g, rep)] for a pattern without metacharacters: the text is
    scanned from the left, each match is replaced and the scan goes on behind
    it.  [fuel] bounds the number of steps; the length of [s] is enough. *)
Fixpoint replace_fuel (fuel : nat) (pat rep s : string) : string :=
  match fuel with
  | O => s
  | S fuel' =>
      match s with
      | EmptyString => EmptyString
      | String c s' =>
          match strip_prefix pat s with
          | Some rest => rep +:+ replace_fuel fuel' pat rep rest
          | None => String c (replace_fuel fuel' pat rep s')
          end
      end
  end.

Definition replace_all (pat rep s : string) : string :=
  replace_fuel (String.length s) pat rep s.

Definition quote : string := String "034"%char EmptyString.

Definition decodeAlpineJson (str : string) : string :=
  replace_all "&amp;" "&" (replace_all "\u0026" "&" (replace_all "&#34;" quote str)).

(** The loop of [parseLeaguePage] that looks for the bracket closing the
    members array: [s] is the text from index [i] on; the result is the
    final value of [i]. *)
Fixpoint walk (s : string) (depth : Z) (i : nat) : nat :=
  match s with
  | EmptyString => i
  | String c s' =>
      if decide (c = "["%char) then walk s' (depth + 1) (S i)
      else if decide (c = "]"%char) then
        if decide (depth - 1 = 0) then i else walk s' (depth - 1) (S i)
      else walk s' depth (S i)
  end.

(** [html.slice(n)] *)
Fixpoint string_drop (n : nat) (s : string) : string :=
  match n, s with
  | O, _ => s
  | S n', String _ s' => string_drop n' s'
  | S _, EmptyString => EmptyString
  end.

(** [rawJson]: [html.slice(arrayStart, i + 1)] for the [i] the loop ends with. *)
Definition rawJson (html : string) (arrayStart : nat) : string :=
  let i := walk (string_drop arrayStart html) 0 arrayStart in
  String.substring arrayStart (S i - arrayStart) html.

Definition members_marker : string := quote +:+ "members" +:+ quote +:+ ":".

(** The text that [parseLeaguePage] hands to [decodeAlpineJson] and
    [JSON.parse]; [None] when no marker or no opening bracket is found. *)
Definition members_rawJson (html : string) : option string :=
  let membersMarker := String.index 0 members_marker html in
  let altMarker := String.index 0 "members: [" html in
  let markerIdx := match membersMarker with Some k => Some k | None => altMarker end in
  match markerIdx with
  | None => None
  | Some k =>
      match String.index k "[" html with
      | None => None
      | Some arrayStart => Some (rawJson html arrayStart)
      end
  end.

End scraper.

(** ** bot.js: the [/remind] command *)

Module bot.

(** The options of a [/remind] interaction.  [opt_datetime] is the result
    of [parseDateTime] on the [datetime] string ([None] for [null]);
    [opt_remind_before] is [getInteger('remind_before')]. *)
Record remind_options := {
  opt_type : string;
  opt_datetime : option Z;
  opt_remind_before : option Z;
}.

Inductive reply :=
  | ReplyUnparsed
  | ReplyPast
  | ReplySet (reminderId : string)
  | ThrowsRangeError.

(** A [Date] holds a time value of magnitude at most 8.64e15 ms, or is
    invalid; comparisons with an invalid date are false and its
    [toISOString] throws. *)
Definition TimeClip (t : Z) : option Z :=
  if decide (Z.abs t ≤ 8640000000000000) then Some t else None.

Definition labels (t : string) : string :=
  if decide (t = "submission") then "Submission"
  else if decide (t = "voting") then "Voting"
  else if decide (t = "both") then "Submission & Voting"
  else "".

Definition emojis (t : string) : string :=
  if decide (t = "submission") then "📤"
  else if decide (t = "voting") then "🗳️"
  else if decide (t = "both") then "📤🗳️"
  else "".

(** [config?.notifyChannelId || interaction.channelId] *)
Definition target_channel (config : option guildConfig) (interactionChannel : string) : string :=
  match config with
  | Some c =>
      match notifyChannelId c with
      | Some ch => if decide (ch = "") then interactionChannel else ch
      | None => interactionChannel
      end
  | None => interactionChannel
  end.

Definition remind (guild channel : string) (opt : remind_options) (uuid : string)
    (w : world) : reply * world :=
  let remindBefore := default 60 (opt_remind_before opt) in
  match opt_datetime opt with
  | None => (ReplyUnparsed, w)
  | Some deadline =>
      let remindAt := TimeClip (deadline - remindBefore * 60000) in
      let '(now, w) := Date_now w in
      if (match remindAt with Some t => bool_decide (t ≤ now) | None => false end)
      then (ReplyPast, w)
      else
        let config := storage.getGuildConfig guild w in
        let channelId := target_channel config channel in
        match remindAt with
        | None => (ThrowsRangeError, w)
        | Some t =>
            let '(reminderId, w) :=
              scheduler.addReminder scheduler.MAX_DELAY uuid
                {| o_guildId := guild; o_channelId := channelId;
                   o_type := opt_type opt; o_deadline := deadline;
                   o_remindAt := t; o_label := labels (opt_type opt);
                   o_emoji := emojis (opt_type opt) |} w in
            (ReplySet reminderId, w)
        end
  end.

(** [/setchannel]: the channel option stored as [notifyChannelId]. *)
Definition setchannel (guild channel : string) (w : world) : world :=
  (storage.setGuildConfig guild
     {| notifyChannelId := Some channel; leagueUrl := None |} w).2.

Inductive reminders_reply :=
  | NoActiveReminders
  | ActiveReminders (listed : list reminder).

(** [/reminders] *)
Definition reminders (guild : string) (w : world) : reminders_reply * world :=
  let '(l, w) := scheduler.getReminders guild w in
  match l with
  | [] => (NoActiveReminders, w)
  | _ :: _ => (ActiveReminders l, w)
  end.

Inductive cancel_reply :=
  | Cancelled (reminderId : string)
  | NoReminderFound (reminderId : string).

(** [/cancelreminder] *)
Definition cancelreminder (guild i : string) (w : world) : cancel_reply * world :=
  let '(success, w) := scheduler.cancelReminder guild i w in
  if success then (Cancelled i, w) else (NoReminderFound i, w).

Inductive setleague_reply :=
  | NotMusicLeagueUrl
  | LeagueSet
  | SavedButNotFetched (message : string).

(** [/setleague].  [network] tells how the requests of [fetchLeague] and the
    parsing of their answers end: [None] when league data comes back,
    [Some message] when an error is thrown.  The keys [leagueCache] and
    [lastFetched] written after a successful fetch lie outside
    [guildConfig]. *)
Definition setleague (guild url : string) (network : option string) (w : world)
    : setleague_reply * world :=
  if negb (scraper.includes "musicleague.com" url) then (NotMusicLeagueUrl, w)
  else
    let w := (storage.setGuildConfig guild
                {| notifyChannelId := None; leagueUrl := Some url |} w).2 in
    match scraper.fetchLeague_base url with
    | inl message => (SavedButNotFetched message, w)
    | inr _ =>
        match network with
        | Some message => (SavedButNotFetched message, w)
        | None =>
            let '(_, w) := Date_now w in
            let w := (storage.setGuildConfig guild
                        {| notifyChannelId := None; leagueUrl := None |} w).2 in
            (LeagueSet, w)
        end
    end.

End bot.

(** ** Running a timer chain

    The event loop, restricted to the chain of one reminder id: as long as
    a timeout is registered for the id it is run; the delays of the timeouts
    run are collected.  [None] when [fuel] timeouts did not suffice. *)

Fixpoint run_chain (MAX_DELAY : Z) (fuel : nat) (o : outcome) (i : string) (w : world)
    : option (list Z * world) :=
  match activeTimers w !! i with
  | None => Some ([], w)
  | Some h =>
      match timeouts w !! h with
      | None => Some ([], w)
      | Some t =>
          match fuel with
          | O => None
          | S fuel' =>
              let w' := scheduler.run_callback MAX_DELAY (t_callback t) o (clearTimeout h w) in
              match t_callback t with
              | Deliver _ => Some ([t_delay t], w')
              | Reschedule _ =>
                  match run_chain MAX_DELAY fuel' o i w' with
                  | Some (hops, w'') => Some (t_delay t :: hops, w'')
                  | None => None
                  end
              end
          end
      end
  end.

(** [ceil(d / m)] for a positive [m]. *)
Definition ceil_div (d m : Z) : Z := (d + m - 1) / m.

(** Between two consecutive readings of the clock taken by the chain of [r]
    at least the delay armed at the first one has passed: a timeout never
    runs before it expires. *)
Definition on_time (MAX_DELAY : Z) (c : nat → Z) (r : reminder) (n : nat) : Prop :=
  ∀ k, (n ≤ k)%nat → 0 < remindAt r - c k →
    c k + Z.min MAX_DELAY (remindAt r - c k) ≤ c (S k).

(** Every timeout of the chain runs exactly when it expires. *)
Definition punctual (MAX_DELAY : Z) (c : nat → Z) (r : reminder) (n : nat) : Prop :=
  ∀ k, (n ≤ k)%nat → 0 < remindAt r - c k →
    c (S k) = c k + Z.min MAX_DELAY (remindAt r - c k).

(** The timeout that [scheduleTimer] arms for [r] when the clock reads [now]. *)
Definition timer_for (MAX_DELAY : Z) (now : Z) (r : reminder) : timer :=
  if decide (remindAt r - now > MAX_DELAY)
  then {| t_delay := MAX_DELAY; t_callback := Reschedule r |}
  else {| t_delay := remindAt r - now; t_callback := Deliver r |}.

(** The delays of the chain of a reminder that is [d] away, when every
    timeout runs exactly at its expiry. *)
Definition chain_hops (MAX_DELAY d : Z) : list Z :=
  replicate (Z.to_nat ((d - 1) / MAX_DELAY)) MAX_DELAY
    ++ [d - (d - 1) / MAX_DELAY * MAX_DELAY].

(** What the chain of [r], armed [d] before [remindAt] in world [w], leaves
    behind: its delays are positive and at most [MAX_DELAY], all but the
    last are [MAX_DELAY], there are at most [ceil (d / MAX_DELAY)] of them,
    and the delivery was attempted once or (when a timeout ran after
    [remindAt]) not at all. *)
Definition chain_result (MAX_DELAY : Z) (r : reminder) (o : outcome)
    (d : Z) (w : world) (hops : list Z) (w' : world) : Prop :=
  (d ≤ 0 → hops = []) ∧
  (0 < d → hops ≠ [] ∧ (Z.of_nat (length hops) - 1) * MAX_DELAY < d) ∧
  Forall (λ x, 0 < x ≤ MAX_DELAY) hops ∧
  (∀ k x, hops !! k = Some x → (S k < length hops)%nat → x = MAX_DELAY) ∧
  (attempts w' = attempts w ∨ attempts w' = attempts w ++ [(r, o)]) ∧
  activeTimers w' !! id r = None.

(** ** Predicates of the statements *)

(** The listing is in ascending order of [remindAt]. *)
Definition ascending (l : list reminder) : Prop :=
  ∀ (i j : nat) (r1 r2 : reminder),
    (i < j)%nat → l !! i = Some r1 → l !! j = Some r2 → remindAt r1 ≤ remindAt r2.


(** The number of clock readings that the recovery loop has taken when it
    comes to position [n] of [l]: one for each record before [n] that is
    counted as restored. *)
Definition readings_before (now : Z) (l : list reminder) (n : nat) : nat :=
  length (filter (λ r, now < remindAt r) (take n l)).

(** The record [r] at position [n] of [l] is dropped by the recovery loop:
    it is past due at [now], or the reading [c (t0 + ...)] that
    [scheduleTimer] takes for it is not before its [remindAt].  [t0] is the
    index of the first reading of the loop. *)
Definition dropped (now : Z) (c : nat → Z) (t0 : nat) (l : list reminder)
    (n : nat) (r : reminder) : Prop :=
  l !! n = Some r ∧
  (remindAt r ≤ now ∨ remindAt r ≤ c (t0 + readings_before now l n)%nat).

(** Every pending timeout has a handle below [next_handle], and every
    handle kept in [activeTimers] is that of a pending timeout for the
    reminder id it is kept under. *)
Definition timers_wf (w : world) : Prop :=
  (∀ h t, timeouts w !! h = Some t → (h < next_handle w)%nat) ∧
  (∀ i h, activeTimers w !! i = Some h →
     ∃ t, timeouts w !! h = Some t ∧ id (callback_reminder (t_callback t)) = i).

(** The first half of [timers_wf]. *)
Definition handles_bounded (w : world) : Prop :=
  ∀ h t, timeouts w !! h = Some t → (h < next_handle w)%nat.

(** The second half of [timers_wf], for one id. *)
Definition tracked_ok (w : world) (i : string) : Prop :=
  ∀ h, activeTimers w !! i = Some h →
    ∃ t, timeouts w !! h = Some t ∧ id (callback_reminder (t_callback t)) = i.

(** The [opts] that the handler hands to [scheduler.addReminder]. *)
Definition remind_opts (g ch : string) (opt : bot.remind_options) (dl : Z)
    (w : world) : opts :=
  {| o_guildId := g;
     o_channelId := bot.target_channel (storage.getGuildConfig g w) ch;
     o_type := bot.opt_type opt; o_deadline := dl;
     o_remindAt := dl - default 60 (bot.opt_remind_before opt) * 60000;
     o_label := bot.labels (bot.opt_type opt);
     o_emoji := bot.emojis (bot.opt_type opt) |}.

(** The reminder that a [/remind] command creates. *)
Definition remind_record (g ch : string) (opt : bot.remind_options) (dl : Z)
    (uuid : string) (w : world) : reminder :=
  scheduler.make_reminder (String.substring 0 8 uuid) (remind_opts g ch opt dl w).

(** The process stops and starts again: the files stay, the timer tables
    are those of a new process. *)
Definition restart (w : world) : world :=
  set_next_handle 0 (set_timeouts ∅ (set_activeTimers ∅ w)).

(** ** The event loop

    The handlers of bot.js and the closures that [scheduleTimer] hands to
    [setTimeout] run one at a time, each up to its end or to an [await].
    The delivery closure is an [async] function: when its timeout expires
    it has left the pending timeouts and runs up to
    [await client.channels.fetch(...)]; the rest of its [try] block, its
    [catch] and its [finally] block run later, when the requests to Discord
    have settled, and other handlers and timeouts run in between.  A
    delivery that has started and has not reached its [finally] block is in
    flight; it is kept under the handle of the timeout that started it.
    The [ready] handler awaits [registerCommands()] before it calls
    [restoreReminders], so commands can be handled before the recovery. *)

Record system := {
  sys_world : world;
  in_flight : gmap nat reminder;
}.

(** What the event loop can turn to: the call of [restoreReminders] by the
    [ready] handler; a [/remind], [/reminders] or [/cancelreminder] command;
    a call of [storage.setGuildConfig] by a handler ([/setchannel],
    [/setleague]); the expiry of the pending timeout [h]; the end of the
    requests of the delivery started by the timeout [h], with their
    outcome. *)
Inductive event :=
  | Ready
  | Remind (g ch : string) (opt : bot.remind_options) (uuid : string)
  | Reminders (g : string)
  | CancelReminder (g i : string)
  | SetGuildConfig (g : string) (u : guildConfig)
  | Expire (h : nat)
  | Settle (h : nat) (o : outcome).

Definition with_world (w : world) (s : system) : system :=
  {| sys_world := w; in_flight := in_flight s |}.

(** One turn of the event loop; [None] when the event cannot happen: a
    timeout that is not pending does not expire, and only a delivery in
    flight settles. *)
Definition react (e : event) (s : system) : option system :=
  let w := sys_world s in
  match e with
  | Ready => Some (with_world (scheduler.restoreReminders scheduler.MAX_DELAY w).2 s)
  | Remind g ch opt uuid => Some (with_world (bot.remind g ch opt uuid w).2 s)
  | Reminders g => Some (with_world (bot.reminders g w).2 s)
  | CancelReminder g i => Some (with_world (bot.cancelreminder g i w).2 s)
  | SetGuildConfig g u => Some (with_world (storage.setGuildConfig g u w).2 s)
  | Expire h =>
      match timeouts w !! h with
      | None => None
      | Some t =>
          match t_callback t with
          | Reschedule r =>
              Some (with_world
                      (scheduler.scheduleTimer scheduler.MAX_DELAY r (clearTimeout h w)) s)
          | Deliver r =>
              Some {| sys_world := clearTimeout h w;
                      in_flight := <[h := r]> (in_flight s) |}
          end
      end
  | Settle h o =>
      match in_flight s !! h with
      | None => None
      | Some r =>
          Some {| sys_world := scheduler.finally_block r (scheduler.try_block r o w);
                  in_flight := delete h (in_flight s) |}
      end
  end.

Fixpoint run (es : list event) (s : system) : option system :=
  match es with
  | [] => Some s
  | e :: es' =>
      match react e s with
      | Some s' => run es' s'
      | None => None
      end
  end.

(** A process that has just started on the files of [w]. *)
Definition boot (w : world) : system :=
  {| sys_world := restart w; in_flight := ∅ |}.

(** Every handle kept in [activeTimers] is that of a timeout that is
    pending, or of a delivery that is in flight, for a reminder with the id
    it is kept under. *)
Definition tracked_live (s : system) : Prop :=
  ∀ i h, activeTimers (sys_world s) !! i = Some h →
    (∃ t, timeouts (sys_world s) !! h = Some t ∧
          id (callback_reminder (t_callback t)) = i) ∨
    (∃ r, in_flight s !! h = Some r ∧ id r = i).

(** [tracked_live] for the id [i] alone, over the tables themselves. *)
Definition live_at (F : gmap nat reminder) (w : world) (i : string) : Prop :=
  ∀ h, activeTimers w !! i = Some h →
    (∃ t, timeouts w !! h = Some t ∧ id (callback_reminder (t_callback t)) = i) ∨
    (∃ r, F !! h = Some r ∧ id r = i).

(** Handles are handed out once: those of the pending timeouts and of the
    deliveries in flight lie below [next_handle], and no handle is both
    pending and in flight. *)
Definition issued (F : gmap nat reminder) (w : world) : Prop :=
  (∀ h, is_Some (timeouts w !! h) → (h < next_handle w)%nat) ∧
  (∀ h, is_Some (F !! h) → (h < next_handle w)%nat) ∧
  (∀ h, is_Some (timeouts w !! h) → F !! h = None).







(** ** A store that parses but holds [null]

    [JSON.parse] accepts an array in which [null] stands where a record
    should, and [loadReminders] returns it as it is.  Such a file is none
    of the [file]s above (the program never writes one); what the recovery
    does with it is modelled here on its own. *)

Inductive value :=
  | Obj (r : reminder)
  | Null.

Inductive completion :=
  | Returns
  | ThrowsTypeError.

(** The loop of [restoreReminders] over an array that holds a [null].
    Reading [reminder.remindAt] of [null] throws.  [storage.removeReminder]
    throws as well, before it writes: the callback of its [filter] reads
    [r.id] of every element of the array it has just loaded, the [null]
    included.  So [expired] is never incremented and the file is not
    written during the pass: [w] carries the timers, the clock and the
    console, and its [reminders_json] plays no part. *)
Fixpoint restore_values (MAX_DELAY now : Z) (vs : list value) (restored : nat) (w : world)
  : completion * nat * world :=
  match vs with
  | [] => (Returns, restored, w)
  | Null :: _ => (ThrowsTypeError, restored, w)
  | Obj r :: vs' =>
      if decide (remindAt r ≤ now) then (ThrowsTypeError, restored, w)
      else if decide (remindAt r - clock w (ticks w) ≤ 0)
      then (ThrowsTypeError, restored, (Date_now w).2)
      else restore_values MAX_DELAY now vs' (S restored)
             (scheduler.scheduleTimer MAX_DELAY r w)
  end.

(** [restoreReminders] on such an array. *)
Definition restoreReminders_values (MAX_DELAY : Z) (vs : list value) (w : world)
  : completion * world :=
  let '(now, w) := Date_now w in
  match restore_values MAX_DELAY now vs 0 w with
  | (Returns, restored, w) =>
      (Returns, set_console (console w ++ [LogRestored restored 0]) w)
  | (ThrowsTypeError, _, w) => (ThrowsTypeError, w)
  end.

(** Every character of [s] is in [[a-f0-9]]. *)
Fixpoint all_hex (s : string) : bool :=
  match s with
  | EmptyString => true
  | String c s' => scraper.is_hex c && all_hex s'
  end.

(** A league id: 32 characters of [[a-f0-9]]. *)
Definition is_league_id (i : string) : Prop :=
  String.length i = 32%nat ∧ all_hex i = true.

(** The address of a league on the Music League site. *)
Definition league_base (i : string) : string :=
  "https://app.musicleague.com/l/" +:+ i.

(** Opening brackets minus closing brackets. *)
Fixpoint depth_of (s : string) : Z :=
  match s with
  | EmptyString => 0
  | String c s' =>
      (if decide (c = "["%char) then 1
       else if decide (c = "]"%char) then -1 else 0) + depth_of s'
  end.

(** A bracketed block: it opens with a bracket, its brackets balance at its
    end and nowhere before. *)
Definition block (b : string) : Prop :=
  (∃ body, b = String "["%char body) ∧
  depth_of b = 0 ∧
  ∀ p q, b = p +:+ q → p ≠ EmptyString → q ≠ EmptyString → 0 < depth_of p.

(** ** Sample data *)

Definition sample (i g : string) (at_ : Z) : reminder :=
  {| id := i; guildId := g; channelId := "general"; type := "voting";
     deadline := at_ + 3600000; remindAt := at_; label := "Voting"; emoji := "v" |}.

Definition sample_opts (g : string) (at_ : Z) : opts :=
  {| o_guildId := g; o_channelId := "general"; o_type := "voting";
     o_deadline := at_ + 3600000; o_remindAt := at_;
     o_label := "Voting"; o_emoji := "v" |}.

(** A clock given by its first readings; it stays at the last one. *)
Definition clock_of (l : list Z) (n : nat) : Z :=
  default (List.last l 0) (l !! n).

Definition empty_world (f : file) (c : nat → Z) : world :=
  {| reminders_json := f; guilds_json := ∅; activeTimers := ∅; timeouts := ∅;
     next_handle := 0; clock := c; ticks := 0; attempts := []; console := [] |}.

Definition reminder_A : reminder := sample "aaaa0000" "guild-1" 500.
Definition reminder_B : reminder := sample "bbbb0000" "guild-1" 5000.
Definition reminder_C : reminder := sample "aaaa0000" "guild-2" 7000.
Definition reminder_D : reminder := sample "dddd0000" "guild-1" 2000.
Definition reminder_X : reminder := sample "deadbeef" "guild-2" 9000.
Definition reminder_13 : reminder := sample "aaaa1111" "guild-1" 1013.

(** Two version-4 UUIDs with the same first eight characters. *)
Definition uuid_1 : string := "deadbeef-0000-4000-8000-000000000001".
Definition uuid_2 : string := "deadbeef-1111-4111-9111-111111111111".

(** A store holding A (due at 500) and B (due at 5000); the clock reads
    1000, then 1001. *)
Definition world_AB : world :=
  empty_world (Content [Rec reminder_A; Rec reminder_B]) (clock_of [1000; 1001]).

(** Two guilds whose reminders share an id. *)
Definition world_AC : world :=
  empty_world (Content [Rec reminder_A; Rec reminder_C]) (clock_of [100]).

(** B was stored before D, which is due earlier. *)
Definition world_BD : world :=
  empty_world (Content [Rec reminder_B; Rec reminder_D]) (clock_of [1000]).

(** B with its terminal timeout armed. *)
Definition world_armed : world :=
  scheduler.scheduleTimer scheduler.MAX_DELAY reminder_B
    (empty_world (Content [Rec reminder_B]) (clock_of [1000])).

(** A file with a truncated entry between two records. *)
Definition world_corrupt : world :=
  empty_world
    (Content [Rec reminder_A; Malformed "{ id: 'cccc0000', guildId: 'gui"; Rec reminder_B])
    (clock_of [1000; 1001]).

(** The clock reads 1000 when the reminder is armed; the timeouts run at
    1005, 1010 and 1013. *)
Definition world_13 : world :=
  empty_world (Content [Rec reminder_13]) (clock_of [1000; 1005; 1010; 1013]).

(** A [/remind] request for a deadline at 3000000 with the default lead of
    60 minutes: the reminder time is 600000 before the epoch. *)
Definition past_options : bot.remind_options :=
  {| bot.opt_type := "voting"; bot.opt_datetime := Some 3000000;
     bot.opt_remind_before := None |}.

Definition league_1 : string := "0123456789abcdef0123456789abcdef".

(** A page with the members array followed by another array. *)
Definition members_page : string :=
  "<div x-data='{" +:+ scraper.members_marker +:+ " [{id:[1]}], x: [2]}'></div>".

(** A [/remind] request for a deadline at 4000000 with the reminder five
    minutes after it. *)
Definition late_options : bot.remind_options :=
  {| bot.opt_type := "voting"; bot.opt_datetime := Some 4000000;
     bot.opt_remind_before := Some (-5) |}.



(** D (due at 2000) and A (due at 500); the clock reads 1000, 1500 and then
    3000, which is after the time of D. *)
Definition world_restart : world :=
  empty_world (Content [Rec reminder_D; Rec reminder_A]) (clock_of [1000; 1500; 3000]).


(** B, [null], A. *)
Definition values_BnA : list value := [Obj reminder_B; Null; Obj reminder_A].

(** * Properties *)

(** ** The store *)

Lemma JSON_parse_stringify (l : list reminder) :
  storage.JSON_parse (storage.JSON_stringify l) = Some l.
Proof.
  induction l as [|r l IH]; [done|].
  cbn. unfold storage.JSON_stringify in IH. by rewrite IH.
Qed.

Lemma load_save (l : list reminder) :
  storage.loadReminders (storage.saveReminders l) = l.
Proof. cbn. by rewrite JSON_parse_stringify. Qed.

Lemma load_removeReminder (i : string) (f : file) :
  storage.loadReminders (storage.removeReminder i f)
  = filter (λ r, id r ≠ i) (storage.loadReminders f).
Proof. unfold storage.removeReminder. apply load_save. Qed.

Lemma load_addReminder (r : reminder) (f : file) :
  storage.loadReminders (storage.addReminder r f) = storage.loadReminders f ++ [r].
Proof. unfold storage.addReminder. apply load_save. Qed.

Lemma removeReminder_twice (i : string) (f : file) :
  storage.removeReminder i (storage.removeReminder i f) = storage.removeReminder i f.
Proof.
  unfold storage.removeReminder at 1. rewrite load_removeReminder.
  unfold storage.removeReminder. f_equal.
  rewrite list_filter_filter. apply list_filter_iff. tauto.
Qed.

Lemma getAll_removeReminder (i : string) (f : file) :
  storage.getAllReminders (storage.removeReminder i f)
  = filter (λ r, id r ≠ i) (storage.getAllReminders f).
Proof. apply load_removeReminder. Qed.

Lemma getAll_addReminder (r : reminder) (f : file) :
  storage.getAllReminders (storage.addReminder r f) = storage.getAllReminders f ++ [r].
Proof. apply load_addReminder. Qed.

#[global] Arguments storage.removeReminder : simpl never.
#[global] Arguments storage.addReminder : simpl never.
#[global] Arguments storage.getAllReminders : simpl never.
#[global] Arguments storage.loadReminders : simpl never.
#[global] Arguments storage.getRemindersForGuild : simpl never.

Lemma find_id_Some (i : string) (l : list reminder) :
  is_Some (List.find (λ r, bool_decide (id r = i)) l) ↔ ∃ r, r ∈ l ∧ id r = i.
Proof.
  split.
  - intros [r Hr]. apply find_some in Hr as [Hin Hb].
    exists r. split; [by apply list_elem_of_In|]. by apply bool_decide_eq_true in Hb.
  - intros (r & Hin & Hid).
    destruct (List.find _ l) eqn:E; [eauto|]. exfalso.
    eapply find_none in E; [|by apply list_elem_of_In].
    apply bool_decide_eq_false in E. done.
Qed.

Lemma in_guild_iff (g : string) (f : file) (r : reminder) :
  r ∈ storage.getRemindersForGuild g f
  ↔ r ∈ storage.getAllReminders f ∧ guildId r = g.
Proof. unfold storage.getRemindersForGuild. by rewrite list_elem_of_filter, (comm and). Qed.

Lemma not_in_after_remove (i : string) (f : file) (r : reminder) :
  r ∈ storage.getAllReminders (storage.removeReminder i f) → id r ≠ i.
Proof.
  rewrite getAll_removeReminder, list_elem_of_filter. tauto.
Qed.

(** ** Cancellation *)

Lemma live_or_not (g i : string) (f : file) :
  let live := ∃ r, r ∈ storage.getAllReminders f ∧ id r = i ∧ guildId r = g in
  live ∨ ¬ live.
Proof.
  cbn. destruct (List.find (λ r, bool_decide (id r = i))
                   (storage.getRemindersForGuild g f)) eqn:E.
  - left. assert (is_Some (List.find (λ r, bool_decide (id r = i))
      (storage.getRemindersForGuild g f))) as HS by eauto.
    apply find_id_Some in HS as (r' & Hin & Hid). apply in_guild_iff in Hin as [??]. eauto.
  - right. intros (r & Hin & Hid & Hg).
    assert (is_Some (List.find (λ r, bool_decide (id r = i))
      (storage.getRemindersForGuild g f))) as [? HS].
    { apply find_id_Some. exists r. by rewrite in_guild_iff. }
    congruence.
Qed.

Lemma cancelReminder_found (g i : string) (w : world) :
  (∃ r, r ∈ storage.getAllReminders (reminders_json w) ∧ id r = i ∧ guildId r = g) →
  scheduler.cancelReminder g i w =
    (true,
     set_reminders_json
       (storage.removeReminder i (reminders_json w))
       match activeTimers w !! i with
       | Some h => set_activeTimers (delete i (activeTimers w)) (clearTimeout h w)
       | None => w
       end).
Proof.
  intros (r & Hin & Hid & Hg). unfold scheduler.cancelReminder.
  destruct (List.find _ _) eqn:E.
  - by destruct (activeTimers w !! i).
  - assert (is_Some (List.find (λ r, bool_decide (id r = i))
      (storage.getRemindersForGuild g (reminders_json w)))) as [? HS].
    { apply find_id_Some. exists r. by rewrite in_guild_iff. }
    congruence.
Qed.

Lemma cancelReminder_not_found (g i : string) (w : world) :
  ¬ (∃ r, r ∈ storage.getAllReminders (reminders_json w) ∧ id r = i ∧ guildId r = g) →
  scheduler.cancelReminder g i w = (false, w).
Proof.
  intros Hno. unfold scheduler.cancelReminder.
  destruct (List.find _ _) eqn:E; [|done]. exfalso. apply Hno.
  assert (is_Some (List.find (λ r, bool_decide (id r = i))
    (storage.getRemindersForGuild g (reminders_json w)))) as HS by eauto.
  apply find_id_Some in HS as (r' & Hin & Hid). apply in_guild_iff in Hin as [??]. eauto.
Qed.




(** ** Deletion by id *)

(** C10.  [removeReminder(id)] keeps exactly the stored records whose id
    differs from [id], in their order, whatever their guild; so when two
    guilds hold reminders with one id, cancelling in one guild also deletes
    the other guild's record. *)
Theorem removeReminder_by_id_alone :
  (∀ (i : string) (f : file),
     storage.getAllReminders (storage.removeReminder i f)
       = filter (λ r, id r ≠ i) (storage.getAllReminders f) ∧
     ∀ r, r ∈ storage.getAllReminders (storage.removeReminder i f)
          ↔ r ∈ storage.getAllReminders f ∧ id r ≠ i) ∧
  (∀ (w : world) (g : string) (r1 r2 : reminder),
     r1 ∈ storage.getAllReminders (reminders_json w) →
     r2 ∈ storage.getAllReminders (reminders_json w) →
     guildId r1 = g → guildId r2 ≠ g → id r2 = id r1 →
     (scheduler.cancelReminder g (id r1) w).1 = true ∧
     r2 ∉ storage.getAllReminders
            (reminders_json (scheduler.cancelReminder g (id r1) w).2)).
Proof.
  split.
  - intros i f. split; [apply getAll_removeReminder|].
    intros r. rewrite getAll_removeReminder, list_elem_of_filter. tauto.
  - intros w g r1 r2 H1 H2 Hg1 Hg2 Hid.
    rewrite cancelReminder_found by eauto. cbn [fst snd].
    split; [done|]. intros Hin. cbn in Hin.
    by apply not_in_after_remove in Hin.
Qed.

Lemma removeReminder_by_id_alone_witness :
  (scheduler.cancelReminder "guild-1" "aaaa0000" world_AC).1 = true ∧
  reminder_C ∉ storage.getAllReminders
    (reminders_json (scheduler.cancelReminder "guild-1" "aaaa0000" world_AC).2).
Proof.
  apply (proj2 removeReminder_by_id_alone world_AC "guild-1" reminder_A reminder_C).
  - vm_compute. apply list_elem_of_here.
  - vm_compute. apply list_elem_of_further, list_elem_of_here.
  - reflexivity.
  - vm_compute. discriminate.
  - reflexivity.
Defined.

(** ** Cleanup after a fire *)

(** C9.  The cleanup that follows a fire (remove the record, drop the id
    from [activeTimers]) is idempotent: a second run for the same id leaves
    the world as the first run left it, also when the two runs come from
    different reminder objects with that id.  The same holds for
    [storage.removeReminder] on the file alone, and the cleanup is a no-op
    when a cancellation of the id has already gone through. *)
Theorem cleanup_idempotent (r r' : reminder) (g : string) (w : world) (f : file) :
  scheduler.finally_block r (scheduler.finally_block r w) = scheduler.finally_block r w ∧
  storage.removeReminder (id r) (storage.removeReminder (id r) f)
    = storage.removeReminder (id r) f ∧
  (id r' = id r →
   scheduler.finally_block r' (scheduler.finally_block r w) = scheduler.finally_block r w) ∧
  ((scheduler.cancelReminder g (id r) w).1 = true →
   scheduler.finally_block r (scheduler.cancelReminder g (id r) w).2
   = (scheduler.cancelReminder g (id r) w).2).
Proof.
  assert (scheduler.finally_block r (scheduler.finally_block r w)
          = scheduler.finally_block r w) as Htwice.
  { unfold scheduler.finally_block. cbn.
    rewrite removeReminder_twice. unfold set_activeTimers; cbn.
    f_equal. apply delete_delete_eq. }
  split_and!.
  - exact Htwice.
  - apply removeReminder_twice.
  - intros Hid. unfold scheduler.finally_block at 1. rewrite Hid. exact Htwice.
  - intros Hb.
    destruct (live_or_not g (id r) (reminders_json w)) as [Hl|Hl];
      [|rewrite (cancelReminder_not_found _ _ _ Hl) in Hb; done].
    rewrite (cancelReminder_found _ _ _ Hl). cbn [snd].
    unfold scheduler.finally_block.
    destruct (activeTimers w !! id r) as [h|] eqn:E; cbn.
    + rewrite removeReminder_twice. unfold set_activeTimers, set_reminders_json; cbn.
      f_equal. apply delete_delete_eq.
    + rewrite removeReminder_twice. unfold set_activeTimers, set_reminders_json; cbn.
      f_equal. by apply delete_id.
Qed.

Lemma cleanup_idempotent_witness :
  reminder_C ≠ reminder_A ∧
  scheduler.finally_block reminder_C (scheduler.finally_block reminder_A world_AB)
    = scheduler.finally_block reminder_A world_AB ∧
  scheduler.finally_block reminder_A
      (scheduler.cancelReminder "guild-1" "aaaa0000" world_AB).2
    = (scheduler.cancelReminder "guild-1" "aaaa0000" world_AB).2.
Proof.
  destruct (cleanup_idempotent reminder_A reminder_C "guild-1" world_AB Absent)
    as (_ & _ & H3 & H4).
  split; [discriminate|]. split; [apply H3; reflexivity|apply H4; reflexivity].
Defined.

(** ** Listing *)

(** C2, as stated, fails: the listing follows the order of the file, and B
    (due at 5000) was stored before D (due at 2000). *)
Lemma getReminders_not_sorted :
  (scheduler.getReminders "guild-1" world_BD).1 = [reminder_B; reminder_D] ∧
  ¬ ascending (scheduler.getReminders "guild-1" world_BD).1.
Proof.
  split; [reflexivity|].
  intros Hasc.
  specialize (Hasc 0%nat 1%nat reminder_B reminder_D).
  cbn in Hasc. specialize (Hasc ltac:(lia) eq_refl eq_refl). lia.
Qed.

(** C2, amended.  [getReminders(guildId)] returns exactly the stored records
    of that guild whose [remindAt] is after the clock reading, each as often
    as it is stored and in the order of the store; it never returns a record
    of another guild and does not touch the store. *)
Theorem getReminders_spec (g : string) (w : world) :
  let now := clock w (ticks w) in
  let all := storage.getAllReminders (reminders_json w) in
  let l := (scheduler.getReminders g w).1 in
  (∀ r, r ∈ l ↔ r ∈ all ∧ guildId r = g ∧ remindAt r > now) ∧
  l = filter (λ r, guildId r = g ∧ remindAt r > now) all ∧
  l `sublist_of` all ∧
  reminders_json (scheduler.getReminders g w).2 = reminders_json w.
Proof.
  cbn. unfold storage.getRemindersForGuild.
  change (storage.loadReminders (reminders_json w))
    with (storage.getAllReminders (reminders_json w)).
  split_and!.
  - intros r. rewrite !list_elem_of_filter. tauto.
  - rewrite list_filter_filter. apply list_filter_iff. tauto.
  - etrans; apply sublist_filter.
  - done.
Qed.

(** ** The timer engine, one call at a time *)

Lemma scheduleTimer_expired (MAX_DELAY : Z) (r : reminder) (w : world) :
  remindAt r - clock w (ticks w) ≤ 0 →
  scheduler.scheduleTimer MAX_DELAY r w
  = set_activeTimers (delete (id r) (activeTimers w))
      (set_reminders_json (storage.removeReminder (id r) (reminders_json w))
         (set_ticks (S (ticks w)) w)).
Proof.
  intros Hd. unfold scheduler.scheduleTimer, Date_now.
  case_decide; [reflexivity|lia].
Qed.

Lemma scheduleTimer_armed (MAX_DELAY : Z) (r : reminder) (w : world) :
  0 < remindAt r - clock w (ticks w) →
  scheduler.scheduleTimer MAX_DELAY r w
  = set_activeTimers (<[id r := next_handle w]> (activeTimers w))
      (set_next_handle (S (next_handle w))
         (set_timeouts
            (<[next_handle w := timer_for MAX_DELAY (clock w (ticks w)) r]> (timeouts w))
            (set_ticks (S (ticks w)) w))).
Proof.
  intros Hd. unfold scheduler.scheduleTimer, Date_now, timer_for, setTimeout.
  case_decide; [lia|]. cbn. case_decide; reflexivity.
Qed.

#[global] Arguments scheduler.scheduleTimer : simpl never.

(** ** Identifiers *)

(** C8, as stated, fails: two registrations whose random UUIDs agree on
    their first eight characters get the same id, and both records are
    stored under it. *)
Lemma addReminder_id_collision :
  let w0 := empty_world (Content []) (clock_of [1000; 1001]) in
  let reg1 := scheduler.addReminder scheduler.MAX_DELAY uuid_1 (sample_opts "guild-1" 5000) w0 in
  let reg2 := scheduler.addReminder scheduler.MAX_DELAY uuid_2 (sample_opts "guild-2" 9000) reg1.2 in
  uuid_1 ≠ uuid_2 ∧
  reg1.1 = reg2.1 ∧
  storage.getAllReminders (reminders_json reg2.2)
    = [sample "deadbeef" "guild-1" 5000; sample "deadbeef" "guild-2" 9000] ∧
  sample "deadbeef" "guild-1" 5000 ≠ sample "deadbeef" "guild-2" 9000.
Proof. cbn zeta. split_and!; [discriminate|reflexivity|reflexivity|discriminate]. Qed.

(** C8, amended.  The id of a new reminder is the first eight characters of
    the random UUID drawn for it, whatever the store holds: two
    registrations get different ids exactly when their UUIDs differ within
    the first eight characters.  When [remindAt] is ahead of the clock the
    record is stored under that id. *)
Theorem addReminder_id (MAX_DELAY : Z) (u1 u2 : string) (o1 o2 : opts) (w1 w2 : world) :
  (scheduler.addReminder MAX_DELAY u1 o1 w1).1 = String.substring 0 8 u1 ∧
  ((scheduler.addReminder MAX_DELAY u1 o1 w1).1 ≠ (scheduler.addReminder MAX_DELAY u2 o2 w2).1
   ↔ String.substring 0 8 u1 ≠ String.substring 0 8 u2) ∧
  (clock w1 (ticks w1) < o_remindAt o1 →
   storage.getAllReminders (reminders_json (scheduler.addReminder MAX_DELAY u1 o1 w1).2)
   = storage.getAllReminders (reminders_json w1)
       ++ [scheduler.make_reminder (String.substring 0 8 u1) o1]).
Proof.
  split_and!; [done|done|].
  intros Hfut. unfold scheduler.addReminder. cbn [snd].
  rewrite scheduleTimer_armed by (cbn; lia). cbn.
  apply getAll_addReminder.
Qed.

Lemma addReminder_id_witness :
  (scheduler.addReminder scheduler.MAX_DELAY uuid_1 (sample_opts "guild-1" 5000)
     (empty_world (Content []) (clock_of [1000]))).1 = "deadbeef" ∧
  storage.getAllReminders
    (reminders_json
       (scheduler.addReminder scheduler.MAX_DELAY uuid_1 (sample_opts "guild-1" 5000)
          (empty_world (Content []) (clock_of [1000]))).2)
  = [sample "deadbeef" "guild-1" 5000].
Proof.
  destruct (addReminder_id scheduler.MAX_DELAY uuid_1 uuid_2
              (sample_opts "guild-1" 5000) (sample_opts "guild-2" 9000)
              (empty_world (Content []) (clock_of [1000]))
              (empty_world (Content []) (clock_of [1000]))) as (H1 & _ & H3).
  split; [exact H1|].
  rewrite H3; [reflexivity|]. vm_compute. reflexivity.
Defined.

(** ** Delivery *)

(** C4.  When the terminal timeout of [r] runs, one delivery attempt is
    made; whatever its outcome, afterwards no record with the id of [r] is
    stored, the id is out of [activeTimers], the timeout is no longer
    pending and no new one is armed, so the delivery cannot run again.  A
    thrown error is written to the console, and nothing else is.  The
    cleanup has that effect from any state in which it starts. *)
Theorem terminal_fire (MAX_DELAY : Z) (h : nat) (d : Z) (r : reminder)
    (o : outcome) (w : world) :
  timeouts w !! h = Some {| t_delay := d; t_callback := Deliver r |} →
  (∃ w', scheduler.fire MAX_DELAY h o w = Some w' ∧
     attempts w' = attempts w ++ [(r, o)] ∧
     storage.getAllReminders (reminders_json w')
       = filter (λ x, id x ≠ id r) (storage.getAllReminders (reminders_json w)) ∧
     (∀ x, x ∈ storage.getAllReminders (reminders_json w') → id x ≠ id r) ∧
     activeTimers w' = delete (id r) (activeTimers w) ∧
     activeTimers w' !! id r = None ∧
     timeouts w' = delete h (timeouts w) ∧
     console w' = console w ++
       match o with Threw m => [LogFailed (id r) m] | _ => [] end ∧
     ∀ o', scheduler.fire MAX_DELAY h o' w' = None) ∧
  (∀ w1, let w2 := scheduler.finally_block r w1 in
     (∀ x, x ∈ storage.getAllReminders (reminders_json w2) → id x ≠ id r) ∧
     activeTimers w2 !! id r = None ∧
     timeouts w2 = timeouts w1 ∧ attempts w2 = attempts w1).
Proof.
  intros Hh. split.
  - unfold scheduler.fire. rewrite Hh. cbn [t_callback scheduler.run_callback].
    eexists. split; [reflexivity|].
    unfold scheduler.finally_block, scheduler.try_block.
    split_and!.
    + by destruct o.
    + destruct o; cbn; apply getAll_removeReminder.
    + intros x Hx. destruct o; cbn in Hx; by apply not_in_after_remove in Hx.
    + by destruct o.
    + destruct o; cbn; apply lookup_delete_eq.
    + by destruct o.
    + destruct o; cbn; by rewrite ?app_nil_r.
    + intros o'. unfold scheduler.fire.
      assert (∀ w0, timeouts w0 !! h = None →
        match timeouts w0 !! h with
        | Some t => Some (scheduler.run_callback MAX_DELAY (t_callback t) o' (clearTimeout h w0))
        | None => None end = None) as Hnone by (by intros w0 ->).
      apply Hnone. destruct o; cbn; apply lookup_delete_eq.
  - intros w1. cbn. split_and!; try done.
    + intros x Hx. by apply not_in_after_remove in Hx.
    + apply lookup_delete_eq.
Qed.

Lemma terminal_fire_witness :
  ∃ w', scheduler.fire scheduler.MAX_DELAY 0 (Threw "Missing Access") world_armed = Some w' ∧
    attempts w' = [(reminder_B, Threw "Missing Access")] ∧
    storage.getAllReminders (reminders_json w') = [] ∧
    console w' = [LogFailed "bbbb0000" "Missing Access"] ∧
    timeouts w' = ∅.
Proof.
  destruct (terminal_fire scheduler.MAX_DELAY 0 4000 reminder_B (Threw "Missing Access")
              world_armed eq_refl) as [(w' & Hf & Ha & Hs & _ & _ & _ & Ht & Hc & _) _].
  exists w'. split; [exact Hf|].
  rewrite Ha, Hs, Hc, Ht. split_and!; reflexivity.
Defined.

(** ** Registration with a time that is not in the future *)

(** C1, as stated, fails for the scheduler's own entry point: with a
    [remindAt] of 800 and a clock at 1000, [addReminder] returns an id as for
    any other registration; it first writes the record to the file and lets
    [scheduleTimer] remove it again.  That removal rewrites the file (an
    absent file becomes an empty array) and takes with it a stored record of
    another guild that has the same id. *)
Lemma addReminder_accepts_past :
  let o := sample_opts "guild-1" 800 in
  let r := sample "deadbeef" "guild-1" 800 in
  let w0 := empty_world (Content [Rec reminder_X]) (clock_of [1000]) in
  let w1 := empty_world Absent (clock_of [1000]) in
  scheduler.addReminder scheduler.MAX_DELAY uuid_1 o w0
    = ("deadbeef",
       scheduler.scheduleTimer scheduler.MAX_DELAY r
         (set_reminders_json (storage.addReminder r (reminders_json w0)) w0)) ∧
  storage.getAllReminders (storage.addReminder r (reminders_json w0)) = [reminder_X; r] ∧
  storage.getAllReminders (reminders_json w0) = [reminder_X] ∧
  storage.getAllReminders
    (reminders_json (scheduler.addReminder scheduler.MAX_DELAY uuid_1 o w0).2) = [] ∧
  reminders_json (scheduler.addReminder scheduler.MAX_DELAY uuid_1 o w1).2 ≠ reminders_json w1.
Proof. cbn zeta. split_and!; try reflexivity. discriminate. Qed.

(** C1, amended.  The [/remind] handler rejects a request whose reminder
    time is not after its clock reading: it replies that the time is in the
    past (or, when the time is outside the range of [Date], the handler
    throws a [RangeError]), never calls the scheduler, and leaves the store,
    the timers and the log as they were.  [scheduler.addReminder] itself
    validates nothing: it returns the new id; when [remindAt] is not after
    the clock reading of [scheduleTimer], no record with that id is stored
    afterwards and no timeout is armed. *)
Theorem past_registration :
  (∀ (g ch : string) (opt : bot.remind_options) (uuid : string) (w : world) (deadline : Z),
     bot.opt_datetime opt = Some deadline →
     deadline - default 60 (bot.opt_remind_before opt) * 60000 ≤ clock w (ticks w) →
     (bot.remind g ch opt uuid w).1
       = (if decide (Z.abs (deadline - default 60 (bot.opt_remind_before opt) * 60000)
                     ≤ 8640000000000000)
          then bot.ReplyPast else bot.ThrowsRangeError) ∧
     (bot.remind g ch opt uuid w).2 = set_ticks (S (ticks w)) w) ∧
  (∀ (MAX_DELAY : Z) (uuid : string) (o : opts) (w : world),
     o_remindAt o ≤ clock w (ticks w) →
     let i := (scheduler.addReminder MAX_DELAY uuid o w).1 in
     let w' := (scheduler.addReminder MAX_DELAY uuid o w).2 in
     i = String.substring 0 8 uuid ∧
     storage.getAllReminders (reminders_json w')
       = filter (λ x, id x ≠ i) (storage.getAllReminders (reminders_json w)) ∧
     (∀ x, x ∈ storage.getAllReminders (reminders_json w') → id x ≠ i) ∧
     timeouts w' = timeouts w ∧
     activeTimers w' !! i = None ∧
     attempts w' = attempts w).
Proof.
  split.
  - intros g ch opt uuid w deadline Hd Hpast.
    unfold bot.remind. rewrite Hd. unfold bot.TimeClip, Date_now.
    case_decide.
    + rewrite bool_decide_eq_true_2 by done. done.
    + done.
  - intros MAX_DELAY uuid o w Hpast i w'. subst i w'.
    unfold scheduler.addReminder. cbn [fst snd].
    rewrite scheduleTimer_expired by (cbn; lia). cbn.
    assert (storage.getAllReminders
              (storage.removeReminder (String.substring 0 8 uuid)
                 (storage.addReminder
                    (scheduler.make_reminder (String.substring 0 8 uuid) o)
                    (reminders_json w)))
            = filter (λ x, id x ≠ String.substring 0 8 uuid)
                (storage.getAllReminders (reminders_json w))) as Heq.
    { rewrite getAll_removeReminder, getAll_addReminder, filter_app.
      rewrite (filter_cons_False _ (scheduler.make_reminder _ o)) by (cbn; tauto).
      by rewrite filter_nil, app_nil_r. }
    split_and!; try done.
    + intros x. rewrite Heq, list_elem_of_filter. tauto.
    + apply lookup_delete_eq.
Qed.

Lemma past_registration_witness :
  bot.remind "guild-1" "general" past_options uuid_1
      (empty_world (Content [Rec reminder_X]) (clock_of [1000]))
    = (bot.ReplyPast,
       set_ticks 1 (empty_world (Content [Rec reminder_X]) (clock_of [1000]))) ∧
  timeouts (scheduler.addReminder scheduler.MAX_DELAY uuid_1 (sample_opts "guild-1" 800)
              (empty_world (Content []) (clock_of [1000]))).2 = ∅.
Proof.
  split.
  - destruct (proj1 past_registration "guild-1" "general" past_options uuid_1
                (empty_world (Content [Rec reminder_X]) (clock_of [1000])) 3000000
                eq_refl) as [H1 H2].
    + vm_compute. discriminate.
    + rewrite (surjective_pairing (bot.remind _ _ _ _ _)), H1, H2. reflexivity.
  - destruct (proj2 past_registration scheduler.MAX_DELAY uuid_1 (sample_opts "guild-1" 800)
                (empty_world (Content []) (clock_of [1000]))) as (_ & _ & _ & Ht & _).
    + vm_compute. discriminate.
    + rewrite Ht. reflexivity.
Defined.

(** ** Recovery *)

Section recovery.

Variable MAX_DELAY : Z.
Variable now : Z.

Local Abbreviation loop := (foldl (scheduler.restore_step MAX_DELAY now)).
Local Abbreviation future := (λ r : reminder, now < remindAt r).
Local Abbreviation past := (λ r : reminder, remindAt r ≤ now).

Lemma restore_step_past (a b : nat) (w : world) (r : reminder) :
  remindAt r ≤ now →
  scheduler.restore_step MAX_DELAY now (a, b, w) r
  = (a, S b, set_reminders_json (storage.removeReminder (id r) (reminders_json w)) w).
Proof. intros. unfold scheduler.restore_step. case_decide; [done|lia]. Qed.

Lemma restore_step_future (a b : nat) (w : world) (r : reminder) :
  now < remindAt r →
  scheduler.restore_step MAX_DELAY now (a, b, w) r
  = (S a, b, scheduler.scheduleTimer MAX_DELAY r w).
Proof. intros. unfold scheduler.restore_step. case_decide; [lia|done]. Qed.

Lemma scheduleTimer_frame (r : reminder) (w : world) :
  let w' := scheduler.scheduleTimer MAX_DELAY r w in
  console w' = console w ∧ attempts w' = attempts w ∧ clock w' = clock w ∧
  ticks w' = S (ticks w) ∧ guilds_json w' = guilds_json w ∧
  (next_handle w ≤ next_handle w')%nat ∧
  (∀ h, (h < next_handle w)%nat → timeouts w' !! h = timeouts w !! h) ∧
  (∀ x, x ∈ storage.getAllReminders (reminders_json w') →
        x ∈ storage.getAllReminders (reminders_json w)).
Proof.
  destruct (decide (remindAt r - clock w (ticks w) ≤ 0)) as [Hd|Hd]; cbn zeta.
  - rewrite scheduleTimer_expired by done. cbn. split_and!; try done.
    intros x. rewrite getAll_removeReminder, list_elem_of_filter. tauto.
  - rewrite scheduleTimer_armed by lia. cbn. split_and!; try done; [lia|].
    intros h Hh. apply lookup_insert_ne. lia.
Qed.

Lemma restore_loop_frame (l : list reminder) (a b : nat) (w : world) :
  let res := loop (a, b, w) l in
  res.1.1 = (a + length (filter future l))%nat ∧
  res.1.2 = (b + length (filter past l))%nat ∧
  console res.2 = console w ∧ attempts res.2 = attempts w ∧
  clock res.2 = clock w ∧ guilds_json res.2 = guilds_json w ∧
  ticks res.2 = (ticks w + length (filter future l))%nat ∧
  (next_handle w ≤ next_handle res.2)%nat ∧
  (∀ h, (h < next_handle w)%nat → timeouts res.2 !! h = timeouts w !! h).
Proof.
  revert a b w. induction l as [|r l IH]; intros a b w.
  { cbn. split_and!; try done; lia. }
  cbn [foldl]. destruct (decide (remindAt r ≤ now)) as [Hp|Hp].
  - rewrite restore_step_past by done.
    rewrite (filter_cons_False future) by lia.
    rewrite (filter_cons_True past) by done.
    destruct (IH a (S b)
      (set_reminders_json (storage.removeReminder (id r) (reminders_json w)) w))
      as (H1 & H2 & H3 & H4 & H5 & H6 & H7 & H8 & H9).
    cbn zeta. rewrite H1, H2, H3, H4, H5, H6, H7. cbn in *.
    split_and!; try done; lia.
  - rewrite restore_step_future by lia.
    rewrite (filter_cons_True future) by lia.
    rewrite (filter_cons_False past) by done.
    destruct (IH (S a) b (scheduler.scheduleTimer MAX_DELAY r w))
      as (H1 & H2 & H3 & H4 & H5 & H6 & H7 & H8 & H9).
    destruct (scheduleTimer_frame r w) as (F1 & F2 & F3 & F4 & F5 & F6 & F7 & _).
    cbn zeta. rewrite H1, H2, H3, H4, H5, H6, H7, F1, F2, F3, F4, F5. cbn.
    split_and!; try done; try lia.
    intros h Hh. rewrite H9 by lia. by apply F7.
Qed.

(** Whatever the clock does, the loop only removes records, and it
    removes every record that has the id of a record found past due. *)
Lemma restore_loop_store (l : list reminder) (a b : nat) (w : world) (x : reminder) :
  x ∈ storage.getAllReminders (reminders_json (loop (a, b, w) l).2) →
  x ∈ storage.getAllReminders (reminders_json w) ∧
  ∀ r, r ∈ l → remindAt r ≤ now → id x ≠ id r.
Proof.
  revert a b w. induction l as [|r l IH]; intros a b w Hx.
  { split; [done|]. intros r Hr. by apply elem_of_nil in Hr. }
  cbn [foldl] in Hx. destruct (decide (remindAt r ≤ now)) as [Hp|Hp].
  - rewrite restore_step_past in Hx by done.
    apply IH in Hx as [Hx Hl]. cbn in Hx.
    rewrite getAll_removeReminder, list_elem_of_filter in Hx. destruct Hx as [Hne Hx].
    split; [done|]. intros r' [->|Hr']%elem_of_cons; [done|by apply Hl].
  - rewrite restore_step_future in Hx by lia.
    apply IH in Hx as [Hx Hl].
    split; [by apply (scheduleTimer_frame r w)|].
    intros r' [->|Hr']%elem_of_cons; [done|by apply Hl].
Qed.





End recovery.

Lemma restoreReminders_unfold (MAX_DELAY : Z) (w : world) :
  scheduler.restoreReminders MAX_DELAY w
  = (tt,
     set_console
       (console (foldl (scheduler.restore_step MAX_DELAY (clock w (ticks w)))
                   (0%nat, 0%nat, set_ticks (S (ticks w)) w)
                   (storage.getAllReminders (reminders_json w))).2
        ++ [LogRestored
              (foldl (scheduler.restore_step MAX_DELAY (clock w (ticks w)))
                 (0%nat, 0%nat, set_ticks (S (ticks w)) w)
                 (storage.getAllReminders (reminders_json w))).1.1
              (foldl (scheduler.restore_step MAX_DELAY (clock w (ticks w)))
                 (0%nat, 0%nat, set_ticks (S (ticks w)) w)
                 (storage.getAllReminders (reminders_json w))).1.2])
       (foldl (scheduler.restore_step MAX_DELAY (clock w (ticks w)))
          (0%nat, 0%nat, set_ticks (S (ticks w)) w)
          (storage.getAllReminders (reminders_json w))).2).
Proof.
  unfold scheduler.restoreReminders, Date_now.
  by destruct (foldl _ _ _) as [[a b] w'].
Qed.


(** ** Recovery, record by record *)

Section recovery_by_record.

Variable MAX_DELAY : Z.
Variable now : Z.

Local Abbreviation loop := (foldl (scheduler.restore_step MAX_DELAY now)).

Lemma readings_before_0 (l : list reminder) : readings_before now l 0 = 0%nat.
Proof. unfold readings_before. by rewrite take_0. Qed.

Lemma readings_before_past (r : reminder) (l : list reminder) (n : nat) :
  remindAt r ≤ now →
  readings_before now (r :: l) (S n) = readings_before now l n.
Proof.
  intros Hp. unfold readings_before. cbn [take].
  by rewrite filter_cons_False by lia.
Qed.

Lemma readings_before_future (r : reminder) (l : list reminder) (n : nat) :
  now < remindAt r →
  readings_before now (r :: l) (S n) = S (readings_before now l n).
Proof.
  intros Hp. unfold readings_before. cbn [take].
  by rewrite filter_cons_True by done.
Qed.

Lemma dropped_head (c : nat → Z) (t0 : nat) (r : reminder) (l : list reminder)  (x : reminder) :
  dropped now c t0 (r :: l) 0 x ↔ x = r ∧ (remindAt r ≤ now ∨ remindAt r ≤ c t0).
Proof.
  unfold dropped. rewrite readings_before_0, Nat.add_0_r. cbn.
  split; [intros [[= ->] H]|intros [-> H]]; done.
Qed.

Lemma dropped_tail (c : nat → Z) (t0 : nat) (r : reminder) (l : list reminder)
    (n : nat) (x : reminder) :
  dropped now c t0 (r :: l) (S n) x
  ↔ dropped now c (if decide (now < remindAt r) then S t0 else t0) l n x.
Proof.
  unfold dropped. cbn [lookup list_lookup]. case_decide.
  - rewrite readings_before_future by done.
    by replace (t0 + S (readings_before now l n))%nat
      with (S t0 + readings_before now l n)%nat by lia.
  - by rewrite readings_before_past by lia.
Qed.

(** The store after the loop: the records of before that do not have the
    id of a dropped record. *)
Lemma restore_loop_store_exact (l : list reminder) (a b : nat) (w : world) (x : reminder) :
  x ∈ storage.getAllReminders (reminders_json (loop (a, b, w) l).2)
  ↔ x ∈ storage.getAllReminders (reminders_json w) ∧
    ∀ n r, dropped now (clock w) (ticks w) l n r → id x ≠ id r.
Proof.
  revert a b w. induction l as [|r l IH]; intros a b w.
  { cbn. split; [|tauto]. intros Hx. split; [done|]. by intros n r [? _]. }
  cbn [foldl].
  assert (∀ w1 : world, clock w1 = clock w →
    ticks w1 = (if decide (now < remindAt r) then S (ticks w) else ticks w) →
    ((∀ n r', dropped now (clock w1) (ticks w1) l n r' → id x ≠ id r') ∧
     ((remindAt r ≤ now ∨ remindAt r ≤ clock w (ticks w)) → id x ≠ id r))
    ↔ (∀ n r', dropped now (clock w) (ticks w) (r :: l) n r' → id x ≠ id r')) as Hsplit.
  { intros w1 Hc Ht. rewrite Hc, Ht. split.
    - intros [H1 H2] [|n] r'.
      + intros [-> Hd]%dropped_head. by apply H2.
      + intros Hd%dropped_tail. by apply (H1 n).
    - intros H. split.
      + intros n r' Hd. apply (H (S n)). by apply dropped_tail.
      + intros Hd. apply (H 0%nat). by apply dropped_head. }
  destruct (decide (remindAt r ≤ now)) as [Hp|Hp].
  - rewrite restore_step_past by done. rewrite IH. cbn [reminders_json set_reminders_json].
    rewrite getAll_removeReminder, list_elem_of_filter.
    rewrite <- (Hsplit (set_reminders_json
                          (storage.removeReminder (id r) (reminders_json w)) w));
      [|done|by rewrite decide_False by lia].
    cbn [clock ticks set_reminders_json]. split.
    + intros [[Hne Hx] Hd]. split_and!; try done.
    + intros [Hx [Hd Hr]]. split_and!; try done. apply Hr. by left.
  - rewrite restore_step_future by lia. rewrite IH.
    destruct (decide (remindAt r - clock w (ticks w) ≤ 0)) as [Ho|Ho].
    + rewrite scheduleTimer_expired by done.
      cbn [reminders_json set_reminders_json set_activeTimers set_ticks clock ticks].
      rewrite getAll_removeReminder, list_elem_of_filter.
      rewrite <- (Hsplit (set_ticks (S (ticks w)) w));
        [|done|by rewrite decide_True by lia].
      cbn [clock ticks set_ticks]. split.
      * intros [[Hne Hx] Hd]. split_and!; try done.
      * intros [Hx [Hd Hr]]. split_and!; try done. apply Hr. right. lia.
    + rewrite scheduleTimer_armed by lia.
      cbn [reminders_json set_reminders_json set_activeTimers set_ticks clock ticks
           set_next_handle set_timeouts].
      rewrite <- (Hsplit (set_ticks (S (ticks w)) w));
        [|done|by rewrite decide_True by lia].
      cbn [clock ticks set_ticks]. split.
      * intros [Hx Hd]. split_and!; try done. intros [?|?]; lia.
      * intros [Hx [Hd Hr]]. split_and!; done.
Qed.

(** The loop changes [activeTimers] only at the ids of records counted as
    restored. *)
Lemma restore_loop_untracked (l : list reminder) (a b : nat) (w : world) (i : string) :
  (∀ r, r ∈ l → now < remindAt r → id r ≠ i) →
  activeTimers (loop (a, b, w) l).2 !! i = activeTimers w !! i.
Proof.
  revert a b w. induction l as [|r l IH]; intros a b w Hne; [done|].
  cbn [foldl].
  assert (∀ r', r' ∈ l → now < remindAt r' → id r' ≠ i) as Hne'.
  { intros r' Hr'. apply Hne. by apply list_elem_of_further. }
  destruct (decide (remindAt r ≤ now)) as [Hp|Hp].
  - rewrite restore_step_past by done. by rewrite IH.
  - rewrite restore_step_future by lia. rewrite IH by done.
    assert (id r ≠ i) as Hr by (apply Hne; [apply list_elem_of_here|lia]).
    destruct (decide (remindAt r - clock w (ticks w) ≤ 0)) as [Ho|Ho].
    + rewrite scheduleTimer_expired by done. cbn. by apply lookup_delete_ne.
    + rewrite scheduleTimer_armed by lia. cbn. by apply lookup_insert_ne.
Qed.

(** What the loop does for the record at position [n] when it is counted as
    restored: with the reading taken for it before its [remindAt], a timeout
    is armed for it, which is pending when the loop ends; and when no later
    record counted as restored has its id, [activeTimers] ends up holding
    that timeout under the id, or nothing when the reading was not before
    its [remindAt]. *)
Lemma restore_loop_position (l : list reminder) (a b : nat) (w : world)
    (n : nat) (r : reminder) :
  l !! n = Some r → now < remindAt r →
  let k := (ticks w + readings_before now l n)%nat in
  let res := (loop (a, b, w) l).2 in
  let last := ∀ n' r', (n < n')%nat → l !! n' = Some r' → now < remindAt r' → id r' ≠ id r in
  (clock w k < remindAt r →
     ∃ h, (next_handle w ≤ h)%nat ∧
          timeouts res !! h = Some (timer_for MAX_DELAY (clock w k) r) ∧
          (last → activeTimers res !! id r = Some h)) ∧
  (remindAt r ≤ clock w k → last → activeTimers res !! id r = None).
Proof.
  revert n a b w. induction l as [|r0 l IH]; intros n a b w Hn Hf; [done|].
  destruct n as [|n].
  - cbn in Hn. injection Hn as ->. rewrite readings_before_0, Nat.add_0_r.
    cbn zeta. cbn [foldl]. rewrite restore_step_future by done.
    assert ((∀ n' r', (0 < n')%nat → (r :: l) !! n' = Some r' → now < remindAt r' →
                      id r' ≠ id r) →
            ∀ r', r' ∈ l → now < remindAt r' → id r' ≠ id r) as Hlast.
    { intros H r' [m Hm]%list_elem_of_lookup Hr'. apply (H (S m)); [lia|done|done]. }
    split.
    + intros Harm. exists (next_handle w). split; [lia|].
      destruct (restore_loop_frame MAX_DELAY now l (S a) b
                  (scheduler.scheduleTimer MAX_DELAY r w))
        as (_ & _ & _ & _ & _ & _ & _ & _ & Hkeep).
      cbn zeta in Hkeep. split.
      * rewrite Hkeep.
        -- rewrite scheduleTimer_armed by lia. cbn. apply lookup_insert_eq.
        -- rewrite scheduleTimer_armed by lia. cbn. lia.
      * intros H. rewrite restore_loop_untracked by by apply Hlast.
        rewrite scheduleTimer_armed by lia. cbn. apply lookup_insert_eq.
    + intros Hover H. rewrite restore_loop_untracked by by apply Hlast.
      rewrite scheduleTimer_expired by lia. cbn. apply lookup_delete_eq.
  - cbn in Hn. cbn zeta. cbn [foldl].
    assert (∀ a' b' w', clock w' = clock w →
      ticks w' = (if decide (now < remindAt r0) then S (ticks w) else ticks w) →
      (next_handle w ≤ next_handle w')%nat →
      let k := (ticks w + readings_before now (r0 :: l) (S n))%nat in
      let res := (loop (a', b', w') l).2 in
      let last := ∀ n' r', (S n < n')%nat → (r0 :: l) !! n' = Some r' →
                           now < remindAt r' → id r' ≠ id r in
      (clock w k < remindAt r →
         ∃ h, (next_handle w ≤ h)%nat ∧
              timeouts res !! h = Some (timer_for MAX_DELAY (clock w k) r) ∧
              (last → activeTimers res !! id r = Some h)) ∧
      (remindAt r ≤ clock w k → last → activeTimers res !! id r = None)) as Htail.
    { intros a' b' w' Hc Ht Hh k res last.
      assert (k = (ticks w' + readings_before now l n)%nat) as Hk.
      { subst k. rewrite Ht. case_decide.
        - rewrite readings_before_future by done. lia.
        - rewrite readings_before_past by lia. done. }
      assert (last → ∀ n' r', (n < n')%nat → l !! n' = Some r' →
                               now < remindAt r' → id r' ≠ id r) as Hlast.
      { intros H n' r' Hlt Hl. apply (H (S n')); [lia|done]. }
      destruct (IH n a' b' w' Hn Hf) as [H1 H2]. cbn zeta in H1, H2.
      rewrite <- Hk, Hc in H1, H2. split.
      - intros Harm. destruct (H1 Harm) as (h & Hle & Hto & Htr).
        exists h. split_and!; [lia|done|]. intros H. by apply Htr, Hlast.
      - intros Hover H. by apply H2, Hlast. }
    destruct (decide (remindAt r0 ≤ now)) as [Hp|Hp].
    + rewrite restore_step_past by done.
      apply Htail; cbn; [done|by rewrite decide_False by lia|lia].
    + rewrite restore_step_future by lia.
      destruct (scheduleTimer_frame MAX_DELAY r0 w) as (_ & _ & F3 & F4 & _ & F6 & _).
      apply Htail; [done|by rewrite decide_True by lia|done].
Qed.

End recovery_by_record.




(** ** Recovery from a damaged file *)

Lemma JSON_parse_None (es : list entry) :
  storage.JSON_parse es = None ↔ ∃ text, Malformed text ∈ es.
Proof.
  induction es as [|e es IH]; cbn.
  - split; [done|]. intros [t Ht]. by apply elem_of_nil in Ht.
  - destruct e as [r|t]; cbn.
    + destruct (storage.JSON_parse es) eqn:E.
      * split; [done|]. intros [t [Ht|Ht]%elem_of_cons]; [done|].
        assert (Some l = None) as HN by (apply IH; eauto). done.
      * split; [|done]. intros _. destruct IH as [IH _].
        destruct (IH eq_refl) as [t Ht]. exists t. by apply list_elem_of_further.
    + split; [|done]. intros _. exists t. apply list_elem_of_here.
Qed.






(** ** Delay chaining *)

Section chaining.

Variable MAX_DELAY : Z.
Hypothesis MAX_DELAY_pos : 0 < MAX_DELAY.
Variable r : reminder.
Variable o : outcome.

Lemma run_chain_idle (n : nat) (i : string) (w : world) :
  activeTimers w !! i = None → run_chain MAX_DELAY n o i w = Some ([], w).
Proof. intros H. destruct n; cbn; by rewrite H. Qed.

Lemma run_chain_deliver (n : nat) (i : string) (w : world) (h : nat) (d : Z) :
  activeTimers w !! i = Some h →
  timeouts w !! h = Some {| t_delay := d; t_callback := Deliver r |} →
  run_chain MAX_DELAY (S n) o i w
  = Some ([d], scheduler.finally_block r (scheduler.try_block r o (clearTimeout h w))).
Proof. intros H1 H2. cbn [run_chain]. by rewrite H1, H2. Qed.

Lemma run_chain_reschedule (n : nat) (i : string) (w : world) (h : nat) (d : Z) :
  activeTimers w !! i = Some h →
  timeouts w !! h = Some {| t_delay := d; t_callback := Reschedule r |} →
  run_chain MAX_DELAY (S n) o i w
  = match run_chain MAX_DELAY n o i
            (scheduler.scheduleTimer MAX_DELAY r (clearTimeout h w)) with
    | Some (hops, w'') => Some (d :: hops, w'')
    | None => None
    end.
Proof. intros H1 H2. cbn [run_chain]. by rewrite H1, H2. Qed.

Lemma chain_result_nil (d : Z) (w w' : world) :
  d ≤ 0 → attempts w' = attempts w → activeTimers w' !! id r = None →
  chain_result MAX_DELAY r o d w [] w'.
Proof.
  intros Hd Ha Ht. unfold chain_result. split_and!.
  - done.
  - intros. lia.
  - constructor.
  - intros k x Hk. by rewrite lookup_nil in Hk.
  - by left.
  - done.
Qed.

Lemma chain_result_one (d : Z) (w w' : world) :
  0 < d ≤ MAX_DELAY → attempts w' = attempts w ++ [(r, o)] →
  activeTimers w' !! id r = None →
  chain_result MAX_DELAY r o d w [d] w'.
Proof.
  intros Hd Ha Ht. unfold chain_result. split_and!.
  - intros. lia.
  - intros _. split; [done|]. cbn. lia.
  - constructor; [lia|constructor].
  - intros [|k] x Hk Hlen; cbn in Hk, Hlen; [lia|done].
  - by right.
  - done.
Qed.

Lemma chain_result_cons (d d2 : Z) (w w2 : world) (hops : list Z) (w' : world) :
  MAX_DELAY < d → d2 ≤ d - MAX_DELAY → attempts w2 = attempts w →
  chain_result MAX_DELAY r o d2 w2 hops w' →
  chain_result MAX_DELAY r o d w (MAX_DELAY :: hops) w'.
Proof.
  intros Hd Hd2 Ha (R1 & R2 & R3 & R4 & R5 & R6). unfold chain_result. split_and!.
  - intros. lia.
  - intros _. split; [done|]. cbn [length].
    destruct (decide (d2 ≤ 0)) as [He|He].
    + rewrite (R1 He). cbn. lia.
    + destruct R2 as [_ R2]; [lia|]. lia.
  - constructor; [lia|done].
  - intros [|k] x Hk Hlen; cbn in Hk, Hlen; [congruence|].
    apply (R4 k); [done|lia].
  - by rewrite <- Ha.
  - done.
Qed.

Lemma chain_bounded (n : nat) (w : world) :
  remindAt r - clock w (ticks w) ≤ Z.of_nat n * MAX_DELAY →
  on_time MAX_DELAY (clock w) r (ticks w) →
  ∃ hops w',
    run_chain MAX_DELAY n o (id r) (scheduler.scheduleTimer MAX_DELAY r w) = Some (hops, w') ∧
    chain_result MAX_DELAY r o (remindAt r - clock w (ticks w)) w hops w'.
Proof.
  revert w. induction n as [|n IH]; intros w Hfuel Hon.
  - rewrite scheduleTimer_expired by lia.
    rewrite run_chain_idle by apply lookup_delete_eq.
    eexists _, _. split; [done|].
    apply chain_result_nil; [lia|done|apply lookup_delete_eq].
  - destruct (decide (remindAt r - clock w (ticks w) ≤ 0)) as [Hd|Hd].
    { rewrite scheduleTimer_expired by lia.
      rewrite run_chain_idle by apply lookup_delete_eq.
      eexists _, _. split; [done|].
      apply chain_result_nil; [lia|done|apply lookup_delete_eq]. }
    rewrite scheduleTimer_armed by lia. unfold timer_for.
    destruct (decide (remindAt r - clock w (ticks w) > MAX_DELAY)) as [Hlong|Hshort].
    + erewrite run_chain_reschedule;
        [|cbn; apply lookup_insert_eq|cbn; apply lookup_insert_eq].
      set (w2 := clearTimeout (next_handle w) _).
      assert (clock w2 = clock w) as Hc by done.
      assert (ticks w2 = S (ticks w)) as Ht by done.
      assert (attempts w2 = attempts w) as Ha by done.
      assert (clock w (ticks w) + MAX_DELAY ≤ clock w (S (ticks w))) as Hnext.
      { specialize (Hon (ticks w)). rewrite Z.min_l in Hon by lia. apply Hon; lia. }
      destruct (IH w2) as (hops & w' & Hrun & Hres).
      { rewrite Hc, Ht. lia. }
      { rewrite Hc, Ht. intros k Hk. apply Hon. lia. }
      rewrite Hrun. eexists _, _. split; [done|].
      eapply chain_result_cons; [| |exact Ha|exact Hres]; [lia|].
      rewrite Hc, Ht. lia.
    + erewrite run_chain_deliver;
        [|cbn; apply lookup_insert_eq|cbn; apply lookup_insert_eq].
      eexists _, _. split; [done|].
      apply chain_result_one; [lia|by destruct o|apply lookup_delete_eq].
Qed.

Lemma chain_hops_short (d : Z) :
  0 < d ≤ MAX_DELAY → chain_hops MAX_DELAY d = [d].
Proof.
  intros Hd. unfold chain_hops.
  rewrite (Z.div_small (d - 1) MAX_DELAY) by lia.
  rewrite Z.mul_0_l, Z.sub_0_r. reflexivity.
Qed.

Lemma chain_hops_long (d : Z) :
  MAX_DELAY < d → chain_hops MAX_DELAY d = MAX_DELAY :: chain_hops MAX_DELAY (d - MAX_DELAY).
Proof.
  intros Hd. unfold chain_hops.
  replace (d - 1) with ((d - MAX_DELAY - 1) + 1 * MAX_DELAY) by lia.
  rewrite Z.div_add by lia.
  assert (0 ≤ (d - MAX_DELAY - 1) / MAX_DELAY) as Hq by (apply Z.div_pos; lia).
  rewrite Z2Nat.inj_add by lia. rewrite (Nat.add_comm _ (Z.to_nat 1)).
  change (Z.to_nat 1) with 1%nat. cbn [Nat.add replicate app].
  do 3 f_equal. ring.
Qed.

Lemma chain_punctual (n : nat) (w : world) :
  0 < remindAt r - clock w (ticks w) →
  remindAt r - clock w (ticks w) ≤ Z.of_nat n * MAX_DELAY →
  punctual MAX_DELAY (clock w) r (ticks w) →
  ∃ w',
    run_chain MAX_DELAY n o (id r) (scheduler.scheduleTimer MAX_DELAY r w)
      = Some (chain_hops MAX_DELAY (remindAt r - clock w (ticks w)), w') ∧
    attempts w' = attempts w ++ [(r, o)].
Proof.
  revert w. induction n as [|n IH]; intros w Hpos Hfuel Hp; [lia|].
  rewrite scheduleTimer_armed by lia. unfold timer_for.
  destruct (decide (remindAt r - clock w (ticks w) > MAX_DELAY)) as [Hlong|Hshort].
  - erewrite run_chain_reschedule;
      [|cbn; apply lookup_insert_eq|cbn; apply lookup_insert_eq].
    set (w2 := clearTimeout (next_handle w) _).
    assert (clock w2 = clock w) as Hc by done.
    assert (ticks w2 = S (ticks w)) as Ht by done.
    assert (attempts w2 = attempts w) as Ha by done.
    assert (clock w (S (ticks w)) = clock w (ticks w) + MAX_DELAY) as Hnext.
    { specialize (Hp (ticks w)). rewrite Z.min_l in Hp by lia. apply Hp; lia. }
    destruct (IH w2) as (w' & Hrun & Hatt).
    { rewrite Hc, Ht. lia. }
    { rewrite Hc, Ht. lia. }
    { rewrite Hc, Ht. intros k Hk. apply Hp. lia. }
    rewrite Hrun. exists w'. rewrite Hc, Ht, Ha in *. split; [|done].
    rewrite (chain_hops_long (remindAt r - clock w (ticks w))) by lia.
    rewrite Hnext.
    by replace (remindAt r - (clock w (ticks w) + MAX_DELAY))
      with (remindAt r - clock w (ticks w) - MAX_DELAY) by lia.
  - erewrite run_chain_deliver;
      [|cbn; apply lookup_insert_eq|cbn; apply lookup_insert_eq].
    eexists. split; [by rewrite chain_hops_short by lia|by destruct o].
Qed.

End chaining.

Lemma punctual_on_time (MAX_DELAY : Z) (c : nat → Z) (r : reminder) (n : nat) :
  punctual MAX_DELAY c r n → on_time MAX_DELAY c r n.
Proof. intros Hp k Hk Hd. rewrite (Hp k Hk Hd). lia. Qed.

Lemma ceil_div_covers (d m : Z) :
  0 < m → 0 < d → d ≤ Z.of_nat (Z.to_nat (ceil_div d m)) * m.
Proof.
  intros Hm Hd. unfold ceil_div.
  pose proof (Z.div_mod (d + m - 1) m ltac:(lia)) as Hdm.
  pose proof (Z.mod_pos_bound (d + m - 1) m Hm) as Hb.
  assert (0 ≤ (d + m - 1) / m) by (apply Z.div_pos; lia).
  rewrite Z2Nat.id by done. nia.
Qed.

Lemma ceil_div_bound (d m len : Z) :
  0 < m → (len - 1) * m < d → len ≤ ceil_div d m.
Proof.
  intros Hm Hlen. unfold ceil_div.
  pose proof (Z.div_mod (d + m - 1) m ltac:(lia)) as Hdm.
  pose proof (Z.mod_pos_bound (d + m - 1) m Hm) as Hb.
  nia.
Qed.

Lemma chain_hops_length (m d : Z) :
  0 < m → 0 < d → Z.of_nat (length (chain_hops m d)) = ceil_div d m.
Proof.
  intros Hm Hd. unfold chain_hops, ceil_div.
  rewrite length_app, length_replicate. cbn [length].
  assert (0 ≤ (d - 1) / m) by (apply Z.div_pos; lia).
  replace (d + m - 1) with (d - 1 + 1 * m) by lia.
  rewrite Z.div_add by lia. lia.
Qed.

(** C3.  Arming a reminder that is [d] away ([d = remindAt - now]):
    - [d <= 0]: no timeout is armed, the record is removed and nothing is
      delivered;
    - [0 < d <= MAX_DELAY]: one timeout of [d] is armed, which delivers;
    - [d > MAX_DELAY]: a timeout of [MAX_DELAY] is armed, which runs
      [scheduleTimer] again, with a new reading of the clock.
    When no timeout runs before it expires, the chain ends after at most
    [ceil (d / MAX_DELAY)] timeouts, all of [MAX_DELAY] except possibly the
    last.  When every timeout runs exactly at its expiry the delays are
    [MAX_DELAY, ..., MAX_DELAY, rest], there are [ceil (d / MAX_DELAY)] of
    them, and the delivery is attempted once. *)
Theorem delay_chaining (MAX_DELAY : Z) (r : reminder) (o : outcome) (w : world) :
  0 < MAX_DELAY →
  let d := remindAt r - clock w (ticks w) in
  let w1 := scheduler.scheduleTimer MAX_DELAY r w in
  let h := next_handle w in
  let fuel := Z.to_nat (ceil_div d MAX_DELAY) in
  (d ≤ 0 →
     timeouts w1 = timeouts w ∧ activeTimers w1 !! id r = None ∧
     attempts w1 = attempts w ∧
     (∀ x, x ∈ storage.getAllReminders (reminders_json w1) → id x ≠ id r) ∧
     run_chain MAX_DELAY fuel o (id r) w1 = Some ([], w1)) ∧
  (0 < d ≤ MAX_DELAY →
     timeouts w1 = <[h := {| t_delay := d; t_callback := Deliver r |}]> (timeouts w) ∧
     activeTimers w1 !! id r = Some h) ∧
  (MAX_DELAY < d →
     timeouts w1
       = <[h := {| t_delay := MAX_DELAY; t_callback := Reschedule r |}]> (timeouts w) ∧
     activeTimers w1 !! id r = Some h ∧
     scheduler.fire MAX_DELAY h o w1
       = Some (scheduler.scheduleTimer MAX_DELAY r (clearTimeout h w1))) ∧
  (0 < d → on_time MAX_DELAY (clock w) r (ticks w) →
     ∃ hops w',
       run_chain MAX_DELAY fuel o (id r) w1 = Some (hops, w') ∧
       hops ≠ [] ∧
       Z.of_nat (length hops) ≤ ceil_div d MAX_DELAY ∧
       Forall (λ x, 0 < x ≤ MAX_DELAY) hops ∧
       (∀ k x, hops !! k = Some x → (S k < length hops)%nat → x = MAX_DELAY) ∧
       (attempts w' = attempts w ∨ attempts w' = attempts w ++ [(r, o)]) ∧
       activeTimers w' !! id r = None) ∧
  (0 < d → punctual MAX_DELAY (clock w) r (ticks w) →
     ∃ w',
       run_chain MAX_DELAY fuel o (id r) w1 = Some (chain_hops MAX_DELAY d, w') ∧
       Z.of_nat (length (chain_hops MAX_DELAY d)) = ceil_div d MAX_DELAY ∧
       attempts w' = attempts w ++ [(r, o)]).
Proof.
  intros Hmax d w1 h fuel. split_and!.
  - intros Hd. subst w1. rewrite scheduleTimer_expired by done. cbn.
    split_and!; try done.
    + apply lookup_delete_eq.
    + intros x Hx. by apply not_in_after_remove in Hx.
    + apply run_chain_idle. apply lookup_delete_eq.
  - intros Hd. subst w1 d. rewrite scheduleTimer_armed by lia. unfold timer_for.
    case_decide; [lia|]. cbn. split; [done|apply lookup_insert_eq].
  - intros Hd. subst w1 d. rewrite scheduleTimer_armed by lia. unfold timer_for.
    case_decide; [|lia]. cbn. split_and!; [done|apply lookup_insert_eq|].
    unfold scheduler.fire. cbn. by rewrite lookup_insert_eq.
  - intros Hd Hon.
    destruct (chain_bounded MAX_DELAY Hmax r o fuel w) as (hops & w' & Hrun & Hres).
    { subst fuel. by apply ceil_div_covers. }
    { done. }
    destruct Hres as (_ & R2 & R3 & R4 & R5 & R6).
    destruct (R2 Hd) as [Hne Hlen].
    exists hops, w'. split_and!; try done.
    by apply ceil_div_bound.
  - intros Hd Hp.
    destruct (chain_punctual MAX_DELAY Hmax r o fuel w) as (w' & Hrun & Hatt).
    { done. }
    { subst fuel. by apply ceil_div_covers. }
    { done. }
    exists w'. split_and!; try done.
    by apply chain_hops_length.
Qed.

(** With a ceiling of 5 and a reminder 13 away: delays 5, 5, 3, then one
    delivery. *)
Lemma delay_chaining_witness :
  0 < 5 ∧
  punctual 5 (clock world_13) reminder_13 (ticks world_13) ∧
  on_time 5 (clock world_13) reminder_13 (ticks world_13) ∧
  ∃ w',
    run_chain 5 3 Sent "aaaa1111" (scheduler.scheduleTimer 5 reminder_13 world_13)
      = Some ([5; 5; 3], w') ∧
    attempts w' = [(reminder_13, Sent)].
Proof.
  assert (punctual 5 (clock world_13) reminder_13 (ticks world_13)) as Hp.
  { intros k _. do 4 (destruct k as [|k]; [vm_compute; intros _; reflexivity|]).
    unfold world_13, empty_world, clock_of. cbn. destruct k; cbn; lia. }
  split; [lia|]. split; [exact Hp|]. split; [by apply punctual_on_time|].
  destruct (delay_chaining 5 reminder_13 Sent world_13 ltac:(lia))
    as (_ & _ & _ & _ & Hex).
  destruct Hex as (w' & Hrun & _ & Hatt); [vm_compute; reflexivity|exact Hp|].
  exists w'. split; [exact Hrun|exact Hatt].
Defined.

(** * Further properties of the code *)

(** ** Guild configuration *)

Lemma spread_assoc (a b c : guildConfig) :
  storage.spread (storage.spread a b) c = storage.spread a (storage.spread b c).
Proof.
  destruct a as [a1 a2], b as [b1 b2], c as [c1 c2]. unfold storage.spread; cbn.
  by destruct b1, b2, c1, c2.
Qed.

(** X1.  [setGuildConfig] stores and returns the old configuration of the
    guild overlaid with the updates: a key of the updates wins, any other key
    keeps its value.  [getGuildConfig] then returns that configuration; the
    other guilds, the reminders and the timers are left alone; two calls in
    a row amount to one call with the second updates laid over the first. *)
Theorem setGuildConfig_spec (g : string) (u u2 : guildConfig) (w : world) :
  let old := storage.getGuildConfig g w in
  let res := storage.setGuildConfig g u w in
  storage.getGuildConfig g res.2 = Some res.1 ∧
  notifyChannelId res.1
    = match notifyChannelId u with Some c => Some c | None => old ≫= notifyChannelId end ∧
  leagueUrl res.1
    = match leagueUrl u with Some c => Some c | None => old ≫= leagueUrl end ∧
  (∀ g', g' ≠ g → storage.getGuildConfig g' res.2 = storage.getGuildConfig g' w) ∧
  storage.setGuildConfig g u2 res.2 = storage.setGuildConfig g (storage.spread u u2) w ∧
  reminders_json res.2 = reminders_json w ∧
  activeTimers res.2 = activeTimers w ∧
  timeouts res.2 = timeouts w.
Proof.
  cbn zeta. unfold storage.setGuildConfig, storage.getGuildConfig. cbn.
  split_and!; try done.
  - apply lookup_insert_eq.
  - by destruct (guilds_json w !! g).
  - by destruct (guilds_json w !! g).
  - intros g' Hne. by apply lookup_insert_ne.
  - rewrite lookup_insert_eq. cbn. rewrite spread_assoc.
    unfold set_guilds_json; cbn. by rewrite insert_insert_eq.
Qed.

(** ** The timer tables *)

Lemma wf_scheduleTimer_gen (MAX_DELAY : Z) (r : reminder) (w : world) :
  handles_bounded w → (∀ i, i ≠ id r → tracked_ok w i) →
  timers_wf (scheduler.scheduleTimer MAX_DELAY r w).
Proof.
  intros Hb Ht.
  destruct (decide (remindAt r - clock w (ticks w) ≤ 0)) as [Hd|Hd].
  - rewrite scheduleTimer_expired by done. split; cbn.
    + exact Hb.
    + intros i h Hi. apply lookup_delete_Some in Hi as [Hne Hi]. by apply (Ht i).
  - rewrite scheduleTimer_armed by lia. split; cbn.
    + intros h t Hh. apply lookup_insert_Some in Hh as [[<- _]|[_ Hh]]; [lia|].
      apply Hb in Hh. lia.
    + intros i h Hi. apply lookup_insert_Some in Hi as [[<- <-]|[Hne Hi]].
      * eexists. split; [apply lookup_insert_eq|]. unfold timer_for. by case_decide.
      * destruct (Ht i ltac:(done) h Hi) as (t & Hlook & Hid).
        exists t. split; [|done]. rewrite lookup_insert_ne; [done|].
        apply Hb in Hlook. lia.
Qed.

Lemma wf_scheduleTimer (MAX_DELAY : Z) (r : reminder) (w : world) :
  timers_wf w → timers_wf (scheduler.scheduleTimer MAX_DELAY r w).
Proof. intros [Hb Ht]. apply wf_scheduleTimer_gen; [done|]. intros i _ h. apply Ht. Qed.

(** ** The timer tables along the event loop *)

Lemma issued_fresh (F : gmap nat reminder) (w : world) :
  issued F w → timeouts w !! next_handle w = None ∧ F !! next_handle w = None.
Proof.
  intros (H1 & H2 & _). split.
  - destruct (timeouts w !! next_handle w) eqn:E; [|done].
    assert (next_handle w < next_handle w)%nat by (apply H1; eauto). lia.
  - destruct (F !! next_handle w) eqn:E; [|done].
    assert (next_handle w < next_handle w)%nat by (apply H2; eauto). lia.
Qed.

Lemma live_scheduleTimer (MAX_DELAY : Z) (F : gmap nat reminder) (r : reminder) (w : world) :
  issued F w → (∀ i, i ≠ id r → live_at F w i) →
  issued F (scheduler.scheduleTimer MAX_DELAY r w) ∧
  ∀ i, live_at F (scheduler.scheduleTimer MAX_DELAY r w) i.
Proof.
  intros Hi Hl. pose proof (issued_fresh F w Hi) as [Hf1 Hf2].
  destruct Hi as (I1 & I2 & I3).
  destruct (decide (remindAt r - clock w (ticks w) ≤ 0)) as [Hd|Hd].
  - rewrite scheduleTimer_expired by done. split; [done|].
    intros i h Hh. cbn in Hh. apply lookup_delete_Some in Hh as [Hne Hh].
    by apply (Hl i).
  - rewrite scheduleTimer_armed by lia. split.
    + split_and!; cbn.
      * intros h [t [[<- _]|[_ Hh]]%lookup_insert_Some]; [lia|].
        assert (h < next_handle w)%nat by (apply I1; eauto). lia.
      * intros h Hh. apply I2 in Hh. lia.
      * intros h [t [[<- _]|[_ Hh]]%lookup_insert_Some]; [done|]. apply I3. eauto.
    + intros i h Hh. cbn in Hh. cbn [timeouts set_activeTimers set_next_handle set_timeouts].
      apply lookup_insert_Some in Hh as [[<- <-]|[Hne Hh]].
      * left. eexists. split; [apply lookup_insert_eq|]. unfold timer_for. by case_decide.
      * destruct (Hl i ltac:(done) h Hh) as [(t & Hlook & Hid)|Hfl]; [|by right].
        left. exists t. split; [|done]. rewrite lookup_insert_ne; [done|].
        intros <-. by rewrite Hf1 in Hlook.
Qed.

Lemma live_finally (F : gmap nat reminder) (r : reminder) (w : world) :
  issued F w → (∀ i, i ≠ id r → live_at F w i) →
  issued F (scheduler.finally_block r w) ∧ ∀ i, live_at F (scheduler.finally_block r w) i.
Proof.
  intros Hi Hl. split; [done|].
  intros i h Hh. cbn in Hh. apply lookup_delete_Some in Hh as [Hne Hh]. by apply (Hl i).
Qed.

Lemma live_cancelReminder (F : gmap nat reminder) (g i : string) (w : world) :
  issued F w → (∀ i, live_at F w i) →
  issued F (scheduler.cancelReminder g i w).2 ∧
  ∀ i', live_at F (scheduler.cancelReminder g i w).2 i'.
Proof.
  intros Hi Hl. unfold scheduler.cancelReminder.
  destruct (List.find _ _); [|done]. cbn [snd].
  destruct (activeTimers w !! i) as [h|] eqn:E; [|done].
  destruct Hi as (I1 & I2 & I3). split.
  - split_and!; cbn.
    + intros h' [t [_ Hh]%lookup_delete_Some]. apply I1. eauto.
    + done.
    + intros h' [t [_ Hh]%lookup_delete_Some]. apply I3. eauto.
  - intros i' h' Hh. cbn in Hh. cbn [timeouts set_reminders_json set_activeTimers clearTimeout
                                        set_timeouts].
    apply lookup_delete_Some in Hh as [Hne Hh].
    destruct (Hl i' h' Hh) as [(t' & Hlook' & Hid')|Hfl]; [|by right].
    left. exists t'. split; [|done]. rewrite lookup_delete_ne; [done|].
    intros <-. destruct (Hl i h E) as [(t & Hlook & Hid)|(r0 & Hr & _)].
    + rewrite Hlook in Hlook'. injection Hlook' as <-. congruence.
    + rewrite I3 in Hr by eauto. done.
Qed.

Lemma live_restore_loop (MAX_DELAY now : Z) (F : gmap nat reminder) (l : list reminder)
    (a b : nat) (w : world) :
  issued F w → (∀ i, live_at F w i) →
  issued F (foldl (scheduler.restore_step MAX_DELAY now) (a, b, w) l).2 ∧
  ∀ i, live_at F (foldl (scheduler.restore_step MAX_DELAY now) (a, b, w) l).2 i.
Proof.
  revert a b w. induction l as [|r l IH]; intros a b w Hi Hl; [done|].
  cbn [foldl]. destruct (decide (remindAt r ≤ now)) as [Hp|Hp].
  - rewrite restore_step_past by done. by apply IH.
  - rewrite restore_step_future by lia.
    destruct (live_scheduleTimer MAX_DELAY F r w Hi) as [Hi' Hl'].
    { intros i _. apply Hl. }
    by apply IH.
Qed.

Lemma live_restoreReminders (MAX_DELAY : Z) (F : gmap nat reminder) (w : world) :
  issued F w → (∀ i, live_at F w i) →
  issued F (scheduler.restoreReminders MAX_DELAY w).2 ∧
  ∀ i, live_at F (scheduler.restoreReminders MAX_DELAY w).2 i.
Proof.
  intros Hi Hl. rewrite restoreReminders_unfold. cbn [snd].
  apply (live_restore_loop MAX_DELAY (clock w (ticks w)) F
           (storage.getAllReminders (reminders_json w)) 0 0 (set_ticks (S (ticks w)) w));
    done.
Qed.

Lemma live_remind (F : gmap nat reminder) (g ch : string) (opt : bot.remind_options)
    (uuid : string) (w : world) :
  issued F w → (∀ i, live_at F w i) →
  issued F (bot.remind g ch opt uuid w).2 ∧ ∀ i, live_at F (bot.remind g ch opt uuid w).2 i.
Proof.
  intros Hi Hl. unfold bot.remind.
  destruct (bot.opt_datetime opt) as [deadline|]; [|done].
  unfold Date_now. destruct (bot.TimeClip _) as [t|]; [|done].
  case_bool_decide; [done|].
  unfold scheduler.addReminder. cbn [snd].
  apply live_scheduleTimer; [done|]. intros i _. apply Hl.
Qed.

(** The invariant of the event loop. *)
Lemma react_invariant (e : event) (s s' : system) :
  issued (in_flight s) (sys_world s) → tracked_live s →
  react e s = Some s' →
  issued (in_flight s') (sys_world s') ∧ tracked_live s'.
Proof.
  intros Hi Hl. destruct e as [|g ch opt uuid|g|g i|g u|h|h o]; cbn [react].
  - intros [= <-]. by apply live_restoreReminders.
  - intros [= <-]. by apply live_remind.
  - intros [= <-]. unfold bot.reminders, scheduler.getReminders, Date_now.
    by destruct (filter _ _).
  - intros [= <-]. unfold bot.cancelreminder.
    pose proof (live_cancelReminder (in_flight s) g i (sys_world s) Hi Hl) as H.
    by destruct (scheduler.cancelReminder g i (sys_world s)) as [[] ?].
  - intros [= <-]. done.
  - destruct (timeouts (sys_world s) !! h) as [t|] eqn:E; [|done].
    pose proof Hi as (I1 & I2 & I3).
    destruct (t_callback t) as [r|r] eqn:Ecb; intros [= <-].
    + apply live_scheduleTimer.
      * split_and!; cbn.
        -- intros h' [t' [_ Hh]%lookup_delete_Some]. apply I1. eauto.
        -- done.
        -- intros h' [t' [_ Hh]%lookup_delete_Some]. apply I3. eauto.
      * intros i Hne h' Hh. cbn in Hh.
        destruct (Hl i h' Hh) as [(t' & Hlook & Hid)|Hfl]; [|by right].
        left. exists t'. split; [|done]. cbn. rewrite lookup_delete_ne; [done|].
        intros <-. rewrite E in Hlook. injection Hlook as <-.
        rewrite Ecb in Hid. done.
    + split.
      * split_and!; cbn.
        -- intros h' [t' [_ Hh]%lookup_delete_Some]. apply I1. eauto.
        -- intros h' [r' [[<- _]|[_ Hh]]%lookup_insert_Some]; [apply I1|apply I2]; eauto.
        -- intros h' [t' [Hne Hh]%lookup_delete_Some].
           rewrite lookup_insert_ne by done. apply I3. eauto.
      * intros i h' Hh. cbn in Hh. cbn [sys_world in_flight timeouts clearTimeout set_timeouts].
        destruct (Hl i h' Hh) as [(t' & Hlook & Hid)|(r' & Hr' & Hid)].
        -- destruct (decide (h' = h)) as [->|Hne].
           ++ right. exists r. rewrite lookup_insert_eq. split; [done|].
              rewrite E in Hlook. injection Hlook as <-. by rewrite Ecb in Hid.
           ++ left. exists t'. by rewrite lookup_delete_ne.
        -- right. exists r'. split; [|done]. rewrite lookup_insert_ne; [done|].
           intros <-. rewrite I3 in Hr' by eauto. done.
  - destruct (in_flight s !! h) as [r|] eqn:E; [|done]. intros [= <-].
    pose proof Hi as (I1 & I2 & I3).
    assert (issued (delete h (in_flight s)) (scheduler.try_block r o (sys_world s))) as Hi'.
    { assert (issued (delete h (in_flight s)) (sys_world s)) as Hd.
      { split_and!.
        - done.
        - intros h' [r' [_ Hh]%lookup_delete_Some]. apply I2. eauto.
        - intros h' Hh. apply lookup_delete_None. right. by apply I3. }
      by destruct o. }
    apply (live_finally (delete h (in_flight s)) r _ Hi').
    intros i Hne h' Hh.
    assert (activeTimers (sys_world s) !! i = Some h') as Hh' by by destruct o.
    destruct (Hl i h' Hh') as [(t' & Hlook & Hid)|(r' & Hr' & Hid)].
    + left. exists t'. split; [|done]. by destruct o.
    + right. exists r'. split; [|done]. rewrite lookup_delete_ne; [done|].
      intros <-. rewrite E in Hr'. injection Hr' as <-. done.
Qed.

Lemma run_invariant (es : list event) (s s' : system) :
  issued (in_flight s) (sys_world s) → tracked_live s →
  run es s = Some s' →
  issued (in_flight s') (sys_world s') ∧ tracked_live s'.
Proof.
  revert s. induction es as [|e es IH]; intros s Hi Hl; cbn [run].
  - by intros [= <-].
  - destruct (react e s) as [s1|] eqn:E; [|done].
    destruct (react_invariant e s s1 Hi Hl E) as [Hi1 Hl1]. by apply IH.
Qed.

Lemma boot_invariant (w : world) :
  issued (in_flight (boot w)) (sys_world (boot w)) ∧ tracked_live (boot w).
Proof.
  split.
  - split_and!; cbn; intros h [x Hx]; by rewrite lookup_empty in Hx.
  - intros i h Hh. cbn in Hh. by rewrite lookup_empty in Hh.
Qed.

(** The delivery closure run in one piece is [fire]. *)
Lemma expire_settle (h : nat) (o : outcome) (s : system) (r : reminder) (d : Z) :
  timeouts (sys_world s) !! h = Some {| t_delay := d; t_callback := Deliver r |} →
  in_flight s !! h = None →
  (react (Expire h) s ≫= react (Settle h o))
  = (λ w, with_world w s) <$> scheduler.fire scheduler.MAX_DELAY h o (sys_world s).
Proof.
  intros Ht Hf. unfold scheduler.fire. cbn [react]. rewrite Ht. cbn.
  rewrite lookup_insert_eq. cbn. unfold with_world. f_equal. f_equal.
  rewrite delete_insert_eq. by apply delete_id.
Qed.

(** X3.  Along every run of the event loop from the start of the process,
    each handle kept in [activeTimers] is that of a timeout that is
    pending, or of a delivery that is in flight, for a reminder with the id
    it is kept under: [activeTimers] never holds the handle of a timeout that
    was cleared or whose callback has come to its end.  A delivery in
    flight is no longer pending. *)
Theorem tracked_handles_live (w0 : world) (es : list event) (s : system) :
  run es (boot w0) = Some s →
  tracked_live s ∧
  (∀ h, is_Some (in_flight s !! h) → timeouts (sys_world s) !! h = None).
Proof.
  intros Hrun. destruct (boot_invariant w0) as [Hi Hl].
  destruct (run_invariant es (boot w0) s Hi Hl Hrun) as [(_ & _ & I3) Hl'].
  split; [done|]. intros h Hh.
  destruct (timeouts (sys_world s) !! h) as [t|] eqn:E; [|done].
  rewrite I3 in Hh by eauto. by destruct Hh.
Qed.

(** After a registration, the expiry of its timeout and a listing: the
    handle is still kept in [activeTimers], it is not pending, and its
    delivery is in flight. *)
Lemma tracked_handles_live_witness :
  ∃ s, run [Remind "guild-1" "general" late_options uuid_1; Expire 0; Reminders "guild-1"]
           (boot (empty_world (Content []) (clock_of [1000; 1001]))) = Some s ∧
       tracked_live s ∧
       activeTimers (sys_world s) !! "deadbeef" = Some 0%nat ∧
       timeouts (sys_world s) !! 0%nat = None ∧
       (id <$> in_flight s !! 0%nat) = Some "deadbeef".
Proof.
  eexists. split; [vm_compute; reflexivity|]. split.
  - apply (tracked_handles_live (empty_world (Content []) (clock_of [1000; 1001]))
             [Remind "guild-1" "general" late_options uuid_1; Expire 0; Reminders "guild-1"]).
    vm_compute. reflexivity.
  - split_and!; vm_compute; reflexivity.
Defined.

(** ** Registration through the [/remind] command *)

Lemma addReminder_armed (MAX_DELAY : Z) (uuid : string) (o : opts) (w : world) :
  clock w (ticks w) < o_remindAt o →
  let r := scheduler.make_reminder (String.substring 0 8 uuid) o in
  scheduler.addReminder MAX_DELAY uuid o w
  = (id r,
     set_activeTimers (<[id r := next_handle w]> (activeTimers w))
       (set_next_handle (S (next_handle w))
          (set_timeouts
             (<[next_handle w := timer_for MAX_DELAY (clock w (ticks w)) r]> (timeouts w))
             (set_ticks (S (ticks w))
                (set_reminders_json (storage.addReminder r (reminders_json w)) w))))).
Proof.
  intros Hf r. unfold scheduler.addReminder. fold r.
  rewrite scheduleTimer_armed by (cbn; lia). done.
Qed.

Lemma addReminder_dropped (MAX_DELAY : Z) (uuid : string) (o : opts) (w : world) :
  o_remindAt o ≤ clock w (ticks w) →
  let r := scheduler.make_reminder (String.substring 0 8 uuid) o in
  scheduler.addReminder MAX_DELAY uuid o w
  = (id r,
     set_activeTimers (delete (id r) (activeTimers w))
       (set_reminders_json
          (storage.removeReminder (id r) (storage.addReminder r (reminders_json w)))
          (set_ticks (S (ticks w)) w))).
Proof.
  intros Hf r. unfold scheduler.addReminder. fold r.
  rewrite scheduleTimer_expired by (cbn; lia). done.
Qed.

Lemma getAll_remove_add (r : reminder) (f : file) :
  storage.getAllReminders (storage.removeReminder (id r) (storage.addReminder r f))
  = filter (λ x, id x ≠ id r) (storage.getAllReminders f).
Proof.
  rewrite getAll_removeReminder, getAll_addReminder, filter_app.
  rewrite (filter_cons_False _ r) by tauto. by rewrite filter_nil, app_nil_r.
Qed.

Lemma filter_fresh (i : string) (l : list reminder) :
  (∀ x, x ∈ l → id x ≠ i) → filter (λ x, id x ≠ i) l = l.
Proof.
  intros Hfresh. induction l as [|x l IH]; [done|].
  rewrite filter_cons_True by (apply Hfresh, list_elem_of_here).
  f_equal. apply IH. intros y Hy. by apply Hfresh, list_elem_of_further.
Qed.

Lemma remind_accepts (g ch : string) (opt : bot.remind_options) (uuid : string)
    (w : world) (dl : Z) :
  bot.opt_datetime opt = Some dl →
  Z.abs (dl - default 60 (bot.opt_remind_before opt) * 60000) ≤ 8640000000000000 →
  clock w (ticks w) < dl - default 60 (bot.opt_remind_before opt) * 60000 →
  bot.remind g ch opt uuid w
  = (bot.ReplySet (String.substring 0 8 uuid),
     (scheduler.addReminder scheduler.MAX_DELAY uuid (remind_opts g ch opt dl w)
        (set_ticks (S (ticks w)) w)).2).
Proof.
  intros Hd Hrange Hfut. unfold bot.remind. rewrite Hd.
  unfold bot.TimeClip, Date_now. case_decide; [|done].
  rewrite bool_decide_eq_false_2 by lia. done.
Qed.

(** X4.  A [/remind] command whose reminder time is a valid date after the
    clock is answered with the new id; when that time is still ahead at the
    reading taken by [scheduleTimer], the record is added at the end of the
    store, one timeout is armed for it under a new handle and the handle is
    kept under the id.  The reminder time is the deadline minus
    [remind_before] minutes: it lies after the deadline exactly when
    [remind_before] is negative. *)
Theorem remind_registers (g ch : string) (opt : bot.remind_options) (uuid : string)
    (w : world) (dl : Z) :
  bot.opt_datetime opt = Some dl →
  Z.abs (dl - default 60 (bot.opt_remind_before opt) * 60000) ≤ 8640000000000000 →
  clock w (ticks w) < dl - default 60 (bot.opt_remind_before opt) * 60000 →
  clock w (S (ticks w)) < dl - default 60 (bot.opt_remind_before opt) * 60000 →
  let r := remind_record g ch opt dl uuid w in
  let res := bot.remind g ch opt uuid w in
  res.1 = bot.ReplySet (id r) ∧
  storage.getAllReminders (reminders_json res.2)
    = storage.getAllReminders (reminders_json w) ++ [r] ∧
  timeouts res.2
    = <[next_handle w := timer_for scheduler.MAX_DELAY (clock w (S (ticks w))) r]> (timeouts w) ∧
  activeTimers res.2 = <[id r := next_handle w]> (activeTimers w) ∧
  attempts res.2 = attempts w ∧
  guildId r = g ∧
  deadline r = dl ∧
  remindAt r = dl - default 60 (bot.opt_remind_before opt) * 60000 ∧
  (remindAt r ≤ deadline r ↔ 0 ≤ default 60 (bot.opt_remind_before opt)).
Proof.
  intros Hd Hrange Hfut Hfut2 r res. subst res.
  rewrite (remind_accepts g ch opt uuid w dl) by done.
  rewrite addReminder_armed by (cbn; lia). cbn [fst snd].
  split_and!; try done.
  - cbn. apply getAll_addReminder.
  - cbn. lia.
Qed.

Lemma remind_registers_witness :
  let w := empty_world (Content [Rec reminder_B]) (clock_of [1000; 1001]) in
  let res := bot.remind "guild-1" "general" late_options uuid_1 w in
  res.1 = bot.ReplySet "deadbeef" ∧
  (remindAt <$> storage.getAllReminders (reminders_json res.2)) = [5000; 4300000] ∧
  (deadline <$> storage.getAllReminders (reminders_json res.2)) = [3605000; 4000000].
Proof.
  cbn zeta.
  destruct (remind_registers "guild-1" "general" late_options uuid_1
              (empty_world (Content [Rec reminder_B]) (clock_of [1000; 1001])) 4000000)
    as (H1 & H2 & _); [reflexivity|vm_compute; discriminate|reflexivity|reflexivity|].
  split; [exact H1|]. rewrite H2. split; reflexivity.
Defined.

(** X5.  The handler and [scheduleTimer] read the clock one after the
    other.  When the reminder time lies after the first reading but not
    after the second, the command is still answered with an id, yet
    afterwards no record with that id is stored, no timeout was armed and
    the id is not in [activeTimers]. *)
Theorem remind_dropped (g ch : string) (opt : bot.remind_options) (uuid : string)
    (w : world) (dl : Z) :
  bot.opt_datetime opt = Some dl →
  Z.abs (dl - default 60 (bot.opt_remind_before opt) * 60000) ≤ 8640000000000000 →
  clock w (ticks w) < dl - default 60 (bot.opt_remind_before opt) * 60000 →
  dl - default 60 (bot.opt_remind_before opt) * 60000 ≤ clock w (S (ticks w)) →
  let i := String.substring 0 8 uuid in
  let res := bot.remind g ch opt uuid w in
  res.1 = bot.ReplySet i ∧
  storage.getAllReminders (reminders_json res.2)
    = filter (λ x, id x ≠ i) (storage.getAllReminders (reminders_json w)) ∧
  (∀ x, x ∈ storage.getAllReminders (reminders_json res.2) → id x ≠ i) ∧
  timeouts res.2 = timeouts w ∧
  activeTimers res.2 !! i = None ∧
  attempts res.2 = attempts w.
Proof.
  intros Hd Hrange Hfut Hlate i res. subst res.
  rewrite (remind_accepts g ch opt uuid w dl) by done.
  rewrite addReminder_dropped by (cbn; lia). cbn [fst snd].
  cbn [reminders_json timeouts activeTimers attempts set_activeTimers set_reminders_json
       set_ticks id scheduler.make_reminder].
  fold i.
  assert (storage.getAllReminders
            (storage.removeReminder i
               (storage.addReminder (scheduler.make_reminder i (remind_opts g ch opt dl w))
                  (reminders_json w)))
          = filter (λ x, id x ≠ i) (storage.getAllReminders (reminders_json w))) as Hstore.
  { apply (getAll_remove_add (scheduler.make_reminder i (remind_opts g ch opt dl w))). }
  split_and!; try done.
  - intros x. rewrite Hstore, list_elem_of_filter. tauto.
  - apply lookup_delete_eq.
Qed.

Lemma remind_dropped_witness :
  let w := empty_world (Content [Rec reminder_B]) (clock_of [1000; 4300000]) in
  let res := bot.remind "guild-1" "general" late_options uuid_1 w in
  res.1 = bot.ReplySet "deadbeef" ∧
  storage.getAllReminders (reminders_json res.2) = [reminder_B] ∧
  timeouts res.2 = ∅.
Proof.
  cbn zeta.
  destruct (remind_dropped "guild-1" "general" late_options uuid_1
              (empty_world (Content [Rec reminder_B]) (clock_of [1000; 4300000])) 4000000)
    as (H1 & H2 & _ & H4 & _); [reflexivity|vm_compute; discriminate|reflexivity|
                                vm_compute; discriminate|].
  split; [exact H1|]. rewrite H2, H4. split; reflexivity.
Defined.

(** X2.  After [/setchannel] with channel [ch] in a guild, a reminder
    registered in that guild is addressed to [ch], whichever channel the
    [/remind] command is typed in; the league address of the guild and the
    channels of the other guilds stay as they were.  In a guild without
    any configuration a reminder is addressed to the channel of the
    command. *)
Theorem setchannel_routes (g ch ich : string) (opt : bot.remind_options) (uuid : string)
    (w : world) (dl : Z) :
  ch ≠ EmptyString →
  bot.opt_datetime opt = Some dl →
  Z.abs (dl - default 60 (bot.opt_remind_before opt) * 60000) ≤ 8640000000000000 →
  clock w (ticks w) < dl - default 60 (bot.opt_remind_before opt) * 60000 →
  clock w (S (ticks w)) < dl - default 60 (bot.opt_remind_before opt) * 60000 →
  let w1 := bot.setchannel g ch w in
  (∃ r, storage.getAllReminders (reminders_json (bot.remind g ich opt uuid w1).2)
          = storage.getAllReminders (reminders_json w) ++ [r] ∧
        channelId r = ch ∧ guildId r = g) ∧
  (storage.getGuildConfig g w1 ≫= leagueUrl) = (storage.getGuildConfig g w ≫= leagueUrl) ∧
  (∀ g', g' ≠ g → storage.getGuildConfig g' w1 = storage.getGuildConfig g' w) ∧
  (storage.getGuildConfig g w = None →
   ∃ r, storage.getAllReminders (reminders_json (bot.remind g ich opt uuid w).2)
          = storage.getAllReminders (reminders_json w) ++ [r] ∧
        channelId r = ich).
Proof.
  intros Hch Hd Hrange Hfut Hfut2 w1. split_and!.
  - exists (remind_record g ich opt dl uuid w1). subst w1.
    rewrite (remind_accepts g ich opt uuid _ dl) by done.
    rewrite addReminder_armed by (cbn; lia). cbn [snd].
    split_and!; [apply getAll_addReminder| |done].
    cbn. unfold storage.getGuildConfig, bot.target_channel. cbn.
    rewrite lookup_insert_eq. cbn. by case_decide.
  - subst w1. unfold bot.setchannel, storage.getGuildConfig. cbn.
    rewrite lookup_insert_eq. cbn. by destruct (guilds_json w !! g).
  - intros g' Hne. subst w1. unfold bot.setchannel, storage.getGuildConfig. cbn.
    by apply lookup_insert_ne.
  - intros Hnone. exists (remind_record g ich opt dl uuid w).
    rewrite (remind_accepts g ich opt uuid _ dl) by done.
    rewrite addReminder_armed by (cbn; lia). cbn [snd].
    split; [apply getAll_addReminder|]. cbn.
    unfold storage.getGuildConfig in *. by rewrite Hnone.
Qed.

Lemma setchannel_routes_witness :
  let w := empty_world (Content []) (clock_of [1000; 1001]) in
  (channelId <$> storage.getAllReminders
     (reminders_json
        (bot.remind "guild-1" "lobby" late_options uuid_1
           (bot.setchannel "guild-1" "reminders" w)).2)) = ["reminders"] ∧
  (channelId <$> storage.getAllReminders
     (reminders_json (bot.remind "guild-1" "lobby" late_options uuid_1 w).2)) = ["lobby"].
Proof.
  cbn zeta.
  destruct (setchannel_routes "guild-1" "reminders" "lobby" late_options uuid_1
              (empty_world (Content []) (clock_of [1000; 1001])) 4000000)
    as ((r & Hr & Hc & _) & _ & _ & H4);
    [discriminate|reflexivity|vm_compute; discriminate|reflexivity|reflexivity|].
  destruct (H4 eq_refl) as (r' & Hr' & Hc').
  split.
  - rewrite Hr, fmap_app. cbn [fmap list_fmap]. rewrite Hc. reflexivity.
  - rewrite Hr', fmap_app. cbn [fmap list_fmap]. rewrite Hc'. reflexivity.
Defined.

(** ** A registration followed by a listing or a cancellation *)

Lemma getReminders_eq (g : string) (w : world) :
  scheduler.getReminders g w
  = (filter (λ x, guildId x = g ∧ remindAt x > clock w (ticks w))
       (storage.getAllReminders (reminders_json w)),
     set_ticks (S (ticks w)) w).
Proof.
  unfold scheduler.getReminders, Date_now, storage.getRemindersForGuild. f_equal.
  cbn [reminders_json set_ticks]. rewrite list_filter_filter.
  apply list_filter_iff. tauto.
Qed.

(** X6.  A reminder registered with [/remind] is the last entry of the
    listing of its guild for as long as its time is ahead of the clock, so
    [/reminders] then never answers that there is none; the listing of any
    other guild does not show it. *)
Theorem remind_then_list (g ch : string) (opt : bot.remind_options) (uuid : string)
    (w : world) (dl : Z) :
  bot.opt_datetime opt = Some dl →
  Z.abs (dl - default 60 (bot.opt_remind_before opt) * 60000) ≤ 8640000000000000 →
  clock w (ticks w) < dl - default 60 (bot.opt_remind_before opt) * 60000 →
  clock w (S (ticks w)) < dl - default 60 (bot.opt_remind_before opt) * 60000 →
  clock w (S (S (ticks w))) < dl - default 60 (bot.opt_remind_before opt) * 60000 →
  let r := remind_record g ch opt dl uuid w in
  let w' := (bot.remind g ch opt uuid w).2 in
  let listed g' :=
    filter (λ x, guildId x = g' ∧ remindAt x > clock w (S (S (ticks w))))
      (storage.getAllReminders (reminders_json w)) in
  (scheduler.getReminders g w').1 = listed g ++ [r] ∧
  (bot.reminders g w').1 = bot.ActiveReminders (listed g ++ [r]) ∧
  (∀ g', g' ≠ g → (scheduler.getReminders g' w').1 = listed g') ∧
  reminders_json (bot.reminders g w').2 = reminders_json w'.
Proof.
  intros Hd Hrange Hfut Hfut2 Hfut3 r w' listed. subst w'.
  rewrite (remind_accepts g ch opt uuid w dl) by done.
  rewrite addReminder_armed by (cbn; lia). cbn [snd].
  fold (remind_record g ch opt dl uuid w). fold r.
  assert (∀ g', (scheduler.getReminders g'
            (set_activeTimers (<[id r:=next_handle (set_ticks (S (ticks w)) w)]>
                 (activeTimers (set_ticks (S (ticks w)) w)))
               (set_next_handle (S (next_handle (set_ticks (S (ticks w)) w)))
                  (set_timeouts
                     (<[next_handle (set_ticks (S (ticks w)) w):=
                          timer_for scheduler.MAX_DELAY
                            (clock (set_ticks (S (ticks w)) w) (ticks (set_ticks (S (ticks w)) w)))
                            r]> (timeouts (set_ticks (S (ticks w)) w)))
                     (set_ticks (S (ticks (set_ticks (S (ticks w)) w)))
                        (set_reminders_json
                           (storage.addReminder r (reminders_json (set_ticks (S (ticks w)) w)))
                           (set_ticks (S (ticks w)) w))))))).1
          = listed g' ++ filter (λ x, guildId x = g' ∧ remindAt x > clock w (S (S (ticks w)))) [r])
    as Hlist.
  { intros g'. rewrite getReminders_eq. cbn [fst].
    cbn [reminders_json clock ticks set_activeTimers set_next_handle set_timeouts set_ticks
         set_reminders_json].
    by rewrite getAll_addReminder, filter_app. }
  assert (guildId r = g) as Hg by done.
  assert (remindAt r = dl - default 60 (bot.opt_remind_before opt) * 60000) as Hat by done.
  split_and!.
  - rewrite Hlist. f_equal. rewrite filter_cons_True; [done|]. split; [done|lia].
  - unfold bot.reminders.
    destruct (scheduler.getReminders g _) as [l w2] eqn:E.
    assert (l = listed g ++ [r]) as ->.
    { change l with (l, w2).1. rewrite <- E, Hlist. f_equal.
      rewrite filter_cons_True; [done|]. split; [done|lia]. }
    by destruct (listed g).
  - intros g' Hne. rewrite Hlist.
    rewrite filter_cons_False; [by rewrite filter_nil, app_nil_r|]. intros [? _]. congruence.
  - unfold bot.reminders. rewrite getReminders_eq.
    by destruct (filter _ _).
Qed.

Lemma remind_then_list_witness :
  let w := empty_world (Content [Rec reminder_B; Rec reminder_A]) (clock_of [1000; 1001; 1002]) in
  let w' := (bot.remind "guild-1" "general" late_options uuid_1 w).2 in
  (id <$> (scheduler.getReminders "guild-1" w').1) = ["bbbb0000"; "deadbeef"] ∧
  (scheduler.getReminders "guild-2" w').1 = [].
Proof.
  cbn zeta.
  destruct (remind_then_list "guild-1" "general" late_options uuid_1
              (empty_world (Content [Rec reminder_B; Rec reminder_A])
                 (clock_of [1000; 1001; 1002])) 4000000)
    as (H1 & _ & H3 & _);
    [reflexivity|vm_compute; discriminate|reflexivity|reflexivity|reflexivity|].
  split.
  - rewrite H1. reflexivity.
  - rewrite H3 by discriminate. reflexivity.
Defined.

(** X7.  Registering a reminder with [/remind] and cancelling it with
    [/cancelreminder] in the same guild undoes the registration: the
    command answers that the reminder is cancelled, the store lists the
    records it listed before, the pending timeouts are those of before and
    the id is out of [activeTimers].  The same command in another guild
    answers that there is no such reminder and changes nothing.  (The id
    is assumed not to be that of a stored record, and the timer tables to
    be consistent.) *)
Theorem remind_then_cancel (g ch : string) (opt : bot.remind_options) (uuid : string)
    (w : world) (dl : Z) :
  bot.opt_datetime opt = Some dl →
  Z.abs (dl - default 60 (bot.opt_remind_before opt) * 60000) ≤ 8640000000000000 →
  clock w (ticks w) < dl - default 60 (bot.opt_remind_before opt) * 60000 →
  clock w (S (ticks w)) < dl - default 60 (bot.opt_remind_before opt) * 60000 →
  timers_wf w →
  (∀ x, x ∈ storage.getAllReminders (reminders_json w) → id x ≠ String.substring 0 8 uuid) →
  let i := String.substring 0 8 uuid in
  let w' := (bot.remind g ch opt uuid w).2 in
  (bot.cancelreminder g i w').1 = bot.Cancelled i ∧
  storage.getAllReminders (reminders_json (bot.cancelreminder g i w').2)
    = storage.getAllReminders (reminders_json w) ∧
  timeouts (bot.cancelreminder g i w').2 = timeouts w ∧
  activeTimers (bot.cancelreminder g i w').2 = delete i (activeTimers w) ∧
  (∀ g', g' ≠ g → bot.cancelreminder g' i w' = (bot.NoReminderFound i, w')).
Proof.
  intros Hd Hrange Hfut Hfut2 Hwf Hfresh i w'. subst w'.
  rewrite (remind_accepts g ch opt uuid w dl) by done.
  rewrite addReminder_armed by (cbn; lia). cbn [snd].
  fold (remind_record g ch opt dl uuid w).
  set (r := remind_record g ch opt dl uuid w).
  set (w2 := set_activeTimers _ _).
  assert (storage.getAllReminders (reminders_json w2)
          = storage.getAllReminders (reminders_json w) ++ [r]) as Hstore.
  { subst w2. cbn. apply getAll_addReminder. }
  assert (id r = i) as Hid by done.
  assert (guildId r = g) as Hg by done.
  assert (activeTimers w2 !! i = Some (next_handle w)) as Htracked.
  { subst w2. cbn. apply lookup_insert_eq. }
  assert (timeouts w !! next_handle w = None) as Hnew.
  { destruct (timeouts w !! next_handle w) eqn:E; [|done]. apply Hwf in E. lia. }
  assert (∃ x, x ∈ storage.getAllReminders (reminders_json w2) ∧ id x = i ∧ guildId x = g)
    as Hlive.
  { exists r. rewrite Hstore. split; [|done]. apply elem_of_app. right. apply list_elem_of_here. }
  assert (scheduler.cancelReminder g i w2
          = (true,
             set_reminders_json (storage.removeReminder i (reminders_json w2))
               (set_activeTimers (delete i (activeTimers w2))
                  (clearTimeout (next_handle w) w2)))) as Hcancel.
  { by rewrite (cancelReminder_found _ _ _ Hlive), Htracked. }
  unfold bot.cancelreminder.
  split_and!.
  - by rewrite Hcancel.
  - rewrite Hcancel. cbn [fst snd reminders_json set_reminders_json].
    rewrite getAll_removeReminder, Hstore, filter_app.
    rewrite (filter_cons_False _ r) by tauto.
    rewrite filter_nil, app_nil_r. by apply filter_fresh.
  - rewrite Hcancel. subst w2. cbn.
    by apply delete_insert_id.
  - rewrite Hcancel. subst w2. cbn.
    apply delete_insert_eq.
  - intros g' Hne. rewrite cancelReminder_not_found; [done|].
    intros (x & Hin & Hxi & Hxg). rewrite Hstore in Hin.
    apply elem_of_app in Hin as [Hin|Hin].
    + by apply Hfresh in Hin.
    + apply list_elem_of_singleton in Hin. subst x. congruence.
Qed.

Lemma remind_then_cancel_witness :
  let w := world_armed in
  let w' := (bot.remind "guild-1" "general" late_options uuid_1 w).2 in
  (bot.cancelreminder "guild-1" "deadbeef" w').1 = bot.Cancelled "deadbeef" ∧
  storage.getAllReminders (reminders_json (bot.cancelreminder "guild-1" "deadbeef" w').2)
    = [reminder_B] ∧
  timeouts (bot.cancelreminder "guild-1" "deadbeef" w').2 = timeouts w ∧
  (bot.cancelreminder "guild-2" "deadbeef" w').1 = bot.NoReminderFound "deadbeef".
Proof.
  cbn zeta.
  destruct (remind_then_cancel "guild-1" "general" late_options uuid_1 world_armed 4000000)
    as (H1 & H2 & H3 & _ & H5);
    [reflexivity|vm_compute; discriminate|reflexivity|reflexivity| |
     intros x [->|Hx%elem_of_nil]%elem_of_cons; [vm_compute; discriminate|done] |].
  { apply wf_scheduleTimer. split; cbn; intros ? ? H; by rewrite lookup_empty in H. }
  split_and!; [exact H1| etrans; [exact H2|reflexivity] | exact H3 |].
  exact (f_equal fst (H5 "guild-2" ltac:(discriminate))).
Defined.

(** ** The whole life of a reminder *)




(** ** A damaged store *)

(** X9.  Every write replaces the file by the serialisation of what
    [loadReminders] read plus or minus the change.  So when the file is
    missing or an entry does not parse, adding a reminder leaves a file
    that holds that reminder alone and removing one leaves an empty array:
    the records that were readable in the damaged file are gone.  After
    any write the file parses. *)
Theorem write_replaces_damaged_file (es : list entry) (text : string) (r : reminder)
    (i : string) (f : file) :
  Malformed text ∈ es →
  storage.addReminder r (Content es) = Content [Rec r] ∧
  storage.removeReminder i (Content es) = Content [] ∧
  storage.addReminder r Absent = Content [Rec r] ∧
  (∀ r0, Rec r0 ∈ es → r0 ≠ r →
     r0 ∉ storage.getAllReminders (storage.addReminder r (Content es))) ∧
  storage.addReminder r f
    = Content (storage.JSON_stringify (storage.getAllReminders f ++ [r])) ∧
  storage.removeReminder i f
    = Content (storage.JSON_stringify
                 (filter (λ x, id x ≠ i) (storage.getAllReminders f))) ∧
  storage.getAllReminders (storage.addReminder r f) = storage.getAllReminders f ++ [r].
Proof.
  intros Hbad.
  assert (storage.loadReminders (Content es) = []) as Hload.
  { unfold storage.loadReminders.
    assert (storage.JSON_parse es = None) as -> by (apply JSON_parse_None; eauto). done. }
  split_and!.
  - unfold storage.addReminder. by rewrite Hload.
  - unfold storage.removeReminder. by rewrite Hload.
  - done.
  - intros r0 _ Hne Hin. rewrite getAll_addReminder in Hin.
    unfold storage.getAllReminders in Hin. rewrite Hload in Hin.
    apply list_elem_of_singleton in Hin. done.
  - done.
  - done.
  - apply getAll_addReminder.
Qed.

Lemma write_replaces_damaged_file_witness :
  storage.addReminder reminder_D (reminders_json world_corrupt) = Content [Rec reminder_D] ∧
  reminder_B ∉ storage.getAllReminders
    (storage.addReminder reminder_D (reminders_json world_corrupt)).
Proof.
  destruct (write_replaces_damaged_file
              [Rec reminder_A; Malformed "{ id: 'cccc0000', guildId: 'gui"; Rec reminder_B]
              "{ id: 'cccc0000', guildId: 'gui" reminder_D "x" Absent) as (H1 & _ & _ & H4 & _).
  - apply list_elem_of_further, list_elem_of_here.
  - split; [exact H1|]. apply H4; [|discriminate].
    do 2 apply list_elem_of_further. apply list_elem_of_here.
Defined.

(** ** Text helpers of the scraper *)

Lemma app_String (c : ascii) (a b : string) : String c a +:+ b = String c (a +:+ b).
Proof. done. Qed.

Lemma app_empty_l (s : string) : EmptyString +:+ s = s.
Proof. done. Qed.

Lemma app_empty_r (s : string) : s +:+ EmptyString = s.
Proof. induction s as [|c s IH]; [done|]. by rewrite app_String, IH. Qed.

Lemma app_assoc_s (a b c : string) : (a +:+ b) +:+ c = a +:+ (b +:+ c).
Proof. induction a as [|x a IH]; [done|]. by rewrite !app_String, IH. Qed.

Lemma length_app_s (a b : string) :
  String.length (a +:+ b) = (String.length a + String.length b)%nat.
Proof. induction a as [|x a IH]; [done|]. rewrite app_String. cbn. by rewrite IH. Qed.

Lemma strip_prefix_Some (pat s rest : string) :
  scraper.strip_prefix pat s = Some rest ↔ s = pat +:+ rest.
Proof.
  revert s. induction pat as [|a pat IH]; intros s; cbn.
  - rewrite app_empty_l. split; [by intros [= ->]|by intros ->].
  - destruct s as [|b s]; [done|]. rewrite app_String. case_decide as Hab.
    + subst b. rewrite IH. split; [by intros ->|by intros [= ->]].
    + split; [done|]. intros [= ? ?]. done.
Qed.

Lemma strip_prefix_app (pat rest : string) :
  scraper.strip_prefix pat (pat +:+ rest) = Some rest.
Proof. by apply strip_prefix_Some. Qed.

Lemma includes_true (pat s : string) :
  scraper.includes pat s = true ↔ ∃ a b, s = a +:+ pat +:+ b.
Proof.
  induction s as [|c s IH]; cbn.
  - destruct (scraper.strip_prefix pat EmptyString) as [rest|] eqn:E.
    + apply strip_prefix_Some in E. split; [|done]. intros _. by exists EmptyString, rest.
    + split; [done|]. intros (a & b & Hab). exfalso.
      destruct a as [|x a]; [|done]. rewrite app_empty_l in Hab.
      apply strip_prefix_Some in Hab. congruence.
  - destruct (scraper.strip_prefix pat (String c s)) as [rest|] eqn:E.
    + apply strip_prefix_Some in E. split; [|done]. intros _. by exists EmptyString, rest.
    + rewrite IH. split.
      * intros (a & b & ->). by exists (String c a), b.
      * intros (a & b & Hab). destruct a as [|x a].
        -- rewrite app_empty_l in Hab.
           apply strip_prefix_Some in Hab. congruence.
        -- rewrite app_String in Hab. inversion Hab; subst. by exists a, b.
Qed.

(** ** League addresses *)

Lemma hex_run_Some (n : nat) (s m rest : string) :
  scraper.hex_run n s = Some (m, rest)
  ↔ s = m +:+ rest ∧ String.length m = n ∧ all_hex m = true.
Proof.
  revert s m rest. induction n as [|n IH]; intros s m rest; cbn.
  - split.
    + intros [= <- <-]. done.
    + intros (-> & Hlen & _). destruct m; [done|discriminate].
  - destruct s as [|c s].
    + split; [done|]. intros (Hs & Hlen & _). destruct m; discriminate.
    + destruct (scraper.is_hex c) eqn:Hc.
      * destruct (scraper.hex_run n s) as [[m' rest']|] eqn:E.
        -- apply IH in E as (-> & Hlen & Hhex). split.
           ++ intros [= <- <-]. rewrite app_String. cbn. rewrite Hc, Hhex, Hlen. done.
           ++ intros (Hs & Hlen' & Hhex'). destruct m as [|x m]; [discriminate|].
              rewrite app_String in Hs. injection Hs as <- Hs.
              cbn in Hlen', Hhex'. apply andb_true_iff in Hhex' as [_ Hhex'].
              assert (scraper.hex_run n (m' +:+ rest') = Some (m, rest)) as E'.
              { apply IH. split_and!; [done|lia|done]. }
              assert (scraper.hex_run n (m' +:+ rest') = Some (m', rest')) as E''.
              { apply IH. done. }
              congruence.
        -- split; [done|]. intros (Hs & Hlen' & Hhex'). destruct m as [|x m]; [discriminate|].
           rewrite app_String in Hs. injection Hs as <- Hs.
           cbn in Hlen', Hhex'. apply andb_true_iff in Hhex' as [_ Hhex'].
           assert (scraper.hex_run n s = Some (m, rest)) as E'.
           { apply IH. split_and!; [done|lia|done]. }
           congruence.
      * split; [done|]. intros (Hs & Hlen' & Hhex'). destruct m as [|x m]; [discriminate|].
        rewrite app_String in Hs. injection Hs as <- Hs.
        cbn in Hhex'. rewrite Hc in Hhex'. done.
Qed.

Lemma league_id_at_Some (s i : string) :
  scraper.league_id_at s = Some i
  ↔ is_league_id i ∧ ∃ rest, s = "/l/" +:+ i +:+ "/" +:+ rest.
Proof.
  unfold scraper.league_id_at, is_league_id. split.
  - destruct (scraper.strip_prefix "/l/" s) as [r1|] eqn:E1; [|done].
    apply strip_prefix_Some in E1 as ->.
    destruct (scraper.hex_run 32 r1) as [[m r2]|] eqn:E2; [|done].
    apply hex_run_Some in E2 as (-> & Hlen & Hhex).
    destruct (scraper.strip_prefix "/" r2) as [r3|] eqn:E3; [|done].
    apply strip_prefix_Some in E3 as ->. intros [= <-].
    split; [done|]. by exists r3.
  - intros ([Hlen Hhex] & rest & ->).
    rewrite strip_prefix_app.
    assert (scraper.hex_run 32 (i +:+ "/" +:+ rest) = Some (i, "/" +:+ rest)) as ->
      by (by apply hex_run_Some).
    by rewrite strip_prefix_app.
Qed.

Lemma extract_unfold (url : string) :
  scraper.extractLeagueId url
  = match scraper.league_id_at url with
    | Some i => Some i
    | None =>
        match url with
        | EmptyString => None
        | String _ rest => scraper.extractLeagueId rest
        end
    end.
Proof. by destruct url. Qed.

Lemma extract_sound (url i : string) :
  scraper.extractLeagueId url = Some i →
  is_league_id i ∧ ∃ a b, url = a +:+ "/l/" +:+ i +:+ "/" +:+ b.
Proof.
  induction url as [|c url IH]; rewrite extract_unfold.
  - by destruct (scraper.league_id_at EmptyString) eqn:E.
  - destruct (scraper.league_id_at (String c url)) as [j|] eqn:E.
    + intros [= ->]. apply league_id_at_Some in E as [Hid [rest Hrest]].
      split; [done|]. by exists EmptyString, rest.
    + intros H. apply IH in H as [Hid (a & b & ->)].
      split; [done|]. by exists (String c a), b.
Qed.

Lemma extract_complete (a i b : string) :
  is_league_id i → is_Some (scraper.extractLeagueId (a +:+ "/l/" +:+ i +:+ "/" +:+ b)).
Proof.
  intros Hid. induction a as [|c a IH]; rewrite extract_unfold.
  - rewrite app_empty_l.
    assert (scraper.league_id_at ("/l/" +:+ i +:+ "/" +:+ b) = Some i) as ->
      by (apply league_id_at_Some; eauto). eauto.
  - destruct (scraper.league_id_at _); [eauto|]. by rewrite app_String.
Qed.

(** Nothing in [a], nor [a] followed by a slash, contains [/l/]. *)
Lemma extract_first (a i b : string) :
  scraper.includes "/l/" (a +:+ "/") = false → is_league_id i →
  scraper.extractLeagueId (a +:+ "/l/" +:+ i +:+ "/" +:+ b) = Some i.
Proof.
  intros Hclean Hid. induction a as [|c a IH]; rewrite extract_unfold.
  - rewrite app_empty_l.
    assert (scraper.league_id_at ("/l/" +:+ i +:+ "/" +:+ b) = Some i) as ->
      by (apply league_id_at_Some; eauto). done.
  - assert (scraper.strip_prefix "/l/" (String c a +:+ "/") = None
            ∧ scraper.includes "/l/" (a +:+ "/") = false) as [Hhere Hrest].
    { rewrite app_String in Hclean. cbn [scraper.includes] in Hclean.
      rewrite app_String. by destruct (scraper.strip_prefix "/l/" (String c (a +:+ "/"))). }
    assert (scraper.league_id_at (String c a +:+ "/l/" +:+ i +:+ "/" +:+ b) = None) as ->.
    { unfold scraper.league_id_at.
      assert (scraper.strip_prefix "/l/" (String c a +:+ "/l/" +:+ i +:+ "/" +:+ b) = None) as ->; [|done].
      destruct a as [|c2 [|c3 a]]; rewrite ?app_String, ?app_empty_l in *; cbn in *;
        repeat case_decide; try done; subst; done. }
    rewrite app_String. by apply IH.
Qed.

(** X10.  [extractLeagueId] returns a league id found in the address: 32
    characters of [[a-f0-9]] standing between [/l/] and a slash.  It
    returns nothing exactly when the address has no such part, and it
    returns the id of the part at hand when there is no [/l/] before it. *)
Theorem extractLeagueId_spec (url : string) :
  (∀ i, scraper.extractLeagueId url = Some i →
        is_league_id i ∧ ∃ a b, url = a +:+ "/l/" +:+ i +:+ "/" +:+ b) ∧
  (scraper.extractLeagueId url = None
   ↔ ¬ ∃ a i b, is_league_id i ∧ url = a +:+ "/l/" +:+ i +:+ "/" +:+ b) ∧
  (∀ a i b, url = a +:+ "/l/" +:+ i +:+ "/" +:+ b → is_league_id i →
            scraper.includes "/l/" (a +:+ "/") = false →
            scraper.extractLeagueId url = Some i).
Proof.
  split_and!.
  - intros i. apply extract_sound.
  - split.
    + intros Hnone (a & i & b & Hid & ->).
      destruct (extract_complete a i b Hid) as [j Hj]. congruence.
    + intros Hno. destruct (scraper.extractLeagueId url) as [i|] eqn:E; [|done].
      apply extract_sound in E as [Hid (a & b & ->)]. exfalso. apply Hno. eauto.
  - intros a i b -> Hid Hclean. by apply extract_first.
Qed.

Lemma league_1_id : is_league_id league_1.
Proof. split; reflexivity. Qed.

Lemma extractLeagueId_spec_witness :
  scraper.extractLeagueId ("https://app.musicleague.com/l/" +:+ league_1 +:+ "/") = Some league_1 ∧
  scraper.extractLeagueId "https://app.musicleague.com/l/0123/" = None.
Proof.
  split.
  - apply (proj2 (proj2 (extractLeagueId_spec
             ("https://app.musicleague.com/l/" +:+ league_1 +:+ "/")))
             "https://app.musicleague.com" league_1 EmptyString);
      [reflexivity|exact league_1_id|reflexivity].
  - reflexivity.
Defined.

Lemma endsWith_slash_app (s : string) : scraper.endsWith "/" (s +:+ "/") = true.
Proof.
  induction s as [|c s IH]; [done|].
  rewrite app_String. cbn [scraper.endsWith]. rewrite IH. apply orb_true_r.
Qed.

Lemma is_hex_not_slash (c : ascii) : scraper.is_hex c = true → c ≠ "/"%char.
Proof. intros Hc ->. done. Qed.

Lemma endsWith_slash_hex (a i : string) :
  i ≠ EmptyString → all_hex i = true → scraper.endsWith "/" (a +:+ i) = false.
Proof.
  intros Hne Hhex.
  assert (scraper.endsWith "/" i = false) as Hi.
  { induction i as [|c i IH]; [done|].
    cbn in Hhex. apply andb_true_iff in Hhex as [Hc Hhex].
    cbn [scraper.endsWith]. destruct i as [|c' i].
    - cbn. rewrite bool_decide_eq_false_2; [done|].
      intros [= ->]. by apply is_hex_not_slash in Hc.
    - rewrite bool_decide_eq_false_2 by done. by rewrite IH. }
  induction a as [|c a IH]; [done|].
  rewrite app_String. cbn [scraper.endsWith]. rewrite IH.
  rewrite bool_decide_eq_false_2; [done|].
  intros [= _ H]. destruct a; [|done]. by rewrite app_empty_l in H.
Qed.

Lemma normalised_form (a i path : string) :
  is_league_id i →
  ∃ b, (if scraper.endsWith "/" (a +:+ "/l/" +:+ i +:+ "/" +:+ path)
        then a +:+ "/l/" +:+ i +:+ "/" +:+ path
        else (a +:+ "/l/" +:+ i +:+ "/" +:+ path) +:+ "/")
       = a +:+ "/l/" +:+ i +:+ "/" +:+ b.
Proof.
  intros Hid. destruct (scraper.endsWith "/" _).
  - by exists path.
  - exists (path +:+ "/"). by rewrite !app_assoc_s.
Qed.

Lemma normalised_bare (a i : string) :
  is_league_id i →
  (if scraper.endsWith "/" (a +:+ "/l/" +:+ i)
   then a +:+ "/l/" +:+ i else (a +:+ "/l/" +:+ i) +:+ "/")
  = a +:+ "/l/" +:+ i +:+ "/" +:+ EmptyString.
Proof.
  intros [Hlen Hhex].
  assert (scraper.endsWith "/" (a +:+ "/l/" +:+ i) = false) as ->.
  { rewrite <- app_assoc_s. apply endsWith_slash_hex; [|done]. by destruct i. }
  by rewrite !app_assoc_s.
Qed.

(** X11.  Before it requests anything, [fetchLeague] reduces the address it
    is given to a league id.  The requests go to
    [https://app.musicleague.com/l/<id>], whatever host the address names:
    for an address [a/l/<id>], with or without a trailing slash or a
    further path, the id is the one written there (as long as no [/l/]
    comes before it).  [fetchRounds] does the same.  An address without a
    league id is refused before any request. *)
Theorem fetchLeague_base_spec (a i path : string) :
  is_league_id i →
  scraper.includes "/l/" (a +:+ "/") = false →
  scraper.fetchLeague_base (a +:+ "/l/" +:+ i) = inr (league_base i) ∧
  scraper.fetchLeague_base (a +:+ "/l/" +:+ i +:+ "/" +:+ path) = inr (league_base i) ∧
  scraper.fetchRounds_address (a +:+ "/l/" +:+ i +:+ "/" +:+ path)
    = inr (league_base i +:+ "/-/rounds") ∧
  (∀ url b, scraper.fetchLeague_base url = inr b →
     ∃ j, is_league_id j ∧ b = league_base j) ∧
  (∀ url, scraper.includes "/l/" url = false →
     scraper.fetchLeague_base url = inl "Could not extract league ID from URL.").
Proof.
  intros Hid Hclean. split_and!.
  - unfold scraper.fetchLeague_base. rewrite normalised_bare by done.
    by rewrite extract_first.
  - unfold scraper.fetchLeague_base.
    destruct (normalised_form a i path Hid) as [b ->]. by rewrite extract_first.
  - unfold scraper.fetchRounds_address.
    destruct (normalised_form a i path Hid) as [b ->]. by rewrite extract_first.
  - intros url b. unfold scraper.fetchLeague_base.
    destruct (scraper.extractLeagueId _) as [j|] eqn:E; [|done]. intros [= <-].
    apply extract_sound in E as [Hj _]. by exists j.
  - intros url Hno. unfold scraper.fetchLeague_base.
    destruct (scraper.extractLeagueId _) as [j|] eqn:E; [|done]. exfalso.
    apply extract_sound in E as [[Hlen Hj] (x & y & Hxy)].
    assert (scraper.includes "/l/" url = true) as Hyes; [|congruence].
    apply includes_true.
    destruct j as [|j0 j]; [done|].
    destruct (scraper.endsWith "/" url).
    + exists x, (String j0 j +:+ "/" +:+ y). by rewrite Hxy.
    + assert (∀ u v : string, u +:+ "/" = String j0 v → ∃ v', u = String j0 v') as Hhead.
      { intros [|c u] v; cbn; [|rewrite app_String; intros [= -> _]; eauto].
        intros [= <- _]. cbn in Hj. done. }
      assert (∀ p u w : string, u +:+ "/" = p +:+ String j0 w → ∃ w', u = p +:+ String j0 w')
        as Hpre.
      { induction p as [|c p IHp]; intros u w0 Hu.
        - rewrite app_empty_l in *. by apply Hhead in Hu.
        - destruct u as [|c' u]; [destruct p; discriminate|].
          rewrite !app_String in Hu. injection Hu as -> Hu.
          destruct (IHp u w0 Hu) as [w' ->]. exists w'. by rewrite app_String. }
      destruct (Hpre (x +:+ "/l/") url (j +:+ "/" +:+ y)) as [w' Hw'].
      { rewrite Hxy. by rewrite !app_assoc_s, !app_String. }
      exists x, (String j0 w'). by rewrite Hw', !app_assoc_s.
Qed.

Lemma fetchLeague_base_spec_witness :
  scraper.fetchLeague_base ("https://evil.example/l/" +:+ league_1)
    = inr ("https://app.musicleague.com/l/" +:+ league_1) ∧
  scraper.fetchLeague_base ("https://evil.example/l/" +:+ league_1 +:+ "/x/y")
    = inr ("https://app.musicleague.com/l/" +:+ league_1) ∧
  scraper.fetchLeague_base "https://app.musicleague.com/"
    = inl "Could not extract league ID from URL.".
Proof.
  destruct (fetchLeague_base_spec "https://evil.example" league_1 "x/y" league_1_id eq_refl)
    as (H1 & H2 & _ & _ & H5).
  split; [exact H1|]. split; [exact H2|]. apply H5. reflexivity.
Defined.

(** ** The members array in the league page *)

Lemma depth_of_open (s : string) : depth_of (String "["%char s) = 1 + depth_of s.
Proof. done. Qed.

Lemma depth_of_close (s : string) : depth_of (String "]"%char s) = -1 + depth_of s.
Proof. done. Qed.

Lemma depth_of_other (c : ascii) (s : string) :
  c ≠ "["%char → c ≠ "]"%char → depth_of (String c s) = depth_of s.
Proof. intros H1 H2. cbn [depth_of]. by rewrite !decide_False by done. Qed.

Lemma depth_of_app (a b : string) : depth_of (a +:+ b) = depth_of a + depth_of b.
Proof.
  induction a as [|c a IH]; [done|]. rewrite app_String. cbn [depth_of]. rewrite IH. lia.
Qed.

Lemma string_drop_app (pre s : string) :
  scraper.string_drop (String.length pre) (pre +:+ s) = s.
Proof. induction pre as [|c pre IH]; [by destruct s|]. rewrite app_String. by cbn. Qed.

Lemma substring_skip (pre s : string) (n : nat) :
  String.substring (String.length pre) n (pre +:+ s) = String.substring 0 n s.
Proof. induction pre as [|c pre IH]; [done|]. rewrite app_String. by cbn. Qed.

Lemma substring_take (x y : string) :
  String.substring 0 (String.length x) (x +:+ y) = x.
Proof.
  induction x as [|c x IH]; [by destruct y|]. rewrite app_String. cbn. by rewrite IH.
Qed.

Lemma substring_all (s : string) (n : nat) :
  (String.length s ≤ n)%nat → String.substring 0 n s = s.
Proof.
  revert n. induction s as [|c s IH]; intros [|n] Hn; cbn in *; try done; try lia.
  rewrite IH; [done|lia].
Qed.

Lemma string_last (s : string) :
  s ≠ EmptyString → ∃ u c, s = u +:+ String c EmptyString.
Proof.
  induction s as [|c s IH]; [done|]. intros _. destruct s as [|c' s].
  - by exists EmptyString, c.
  - destruct IH as (u & x & Hu); [done|]. exists (String c u), x. by rewrite app_String, <- Hu.
Qed.

(** The loop runs over [u], in which no bracket brings the depth to zero,
    and then meets a closing bracket. *)
Lemma walk_through (u rest : string) (d : Z) (i : nat) :
  (∀ u1 u2, u = u1 +:+ String "]"%char u2 → d + depth_of u1 - 1 ≠ 0) →
  scraper.walk (u +:+ String "]"%char rest) d i
  = if decide (d + depth_of u - 1 = 0) then (i + String.length u)%nat
    else scraper.walk rest (d + depth_of u - 1) (S (i + String.length u)).
Proof.
  revert d i. induction u as [|c u IH]; intros d i Hopen.
  - rewrite app_empty_l. cbn. rewrite Z.add_0_r, Nat.add_0_r. done.
  - rewrite app_String. cbn [scraper.walk String.length].
    destruct (decide (c = "["%char)) as [->|Hc1].
    + rewrite IH.
      * rewrite depth_of_open.
        replace (d + 1 + depth_of u - 1) with (d + (1 + depth_of u) - 1) by lia.
        replace (S i + String.length u)%nat with (i + S (String.length u))%nat by lia. done.
      * intros u1 u2 ->. specialize (Hopen (String "["%char u1) u2 eq_refl).
        rewrite depth_of_open in Hopen. lia.
    + destruct (decide (c = "]"%char)) as [->|Hc2].
      * pose proof (Hopen EmptyString u eq_refl) as H0. change (depth_of EmptyString) with 0 in H0.
        rewrite decide_False by lia. rewrite IH.
        -- rewrite depth_of_close.
           replace (d - 1 + depth_of u - 1) with (d + (-1 + depth_of u) - 1) by lia.
           replace (S i + String.length u)%nat with (i + S (String.length u))%nat by lia. done.
        -- intros u1 u2 ->. specialize (Hopen (String "]"%char u1) u2 eq_refl).
           rewrite depth_of_close in Hopen. lia.
      * rewrite IH.
        -- rewrite depth_of_other by done.
           replace (S i + String.length u)%nat with (i + S (String.length u))%nat by lia. done.
        -- intros u1 u2 ->. specialize (Hopen (String c u1) u2 eq_refl).
           rewrite depth_of_other in Hopen by done. lia.
Qed.

Lemma walk_unclosed (s : string) (d : Z) (i : nat) :
  (∀ u1 u2, s = u1 +:+ String "]"%char u2 → d + depth_of u1 - 1 ≠ 0) →
  scraper.walk s d i = (i + String.length s)%nat.
Proof.
  revert d i. induction s as [|c s IH]; intros d i Hopen; cbn [scraper.walk String.length].
  - lia.
  - destruct (decide (c = "["%char)) as [->|Hc1].
    + rewrite IH; [lia|].
      intros u1 u2 ->. specialize (Hopen (String "["%char u1) u2 eq_refl).
      rewrite depth_of_open in Hopen. lia.
    + destruct (decide (c = "]"%char)) as [->|Hc2].
      * pose proof (Hopen EmptyString s eq_refl) as H0. change (depth_of EmptyString) with 0 in H0.
        rewrite decide_False by lia. rewrite IH; [lia|].
        intros u1 u2 ->. specialize (Hopen (String "]"%char u1) u2 eq_refl).
        rewrite depth_of_close in Hopen. lia.
      * rewrite IH; [lia|].
        intros u1 u2 ->. specialize (Hopen (String c u1) u2 eq_refl).
        rewrite depth_of_other in Hopen by done. lia.
Qed.

Lemma block_shape (b : string) :
  block b →
  ∃ u, b = u +:+ String "]"%char EmptyString ∧ depth_of u = 1 ∧
       ∀ u1 u2, u = u1 +:+ String "]"%char u2 → 0 + depth_of u1 - 1 ≠ 0.
Proof.
  intros ([body Hbody] & Hzero & Hpos).
  destruct (string_last b) as (u & c & Hu); [by rewrite Hbody|].
  assert (u ≠ EmptyString) as Hne.
  { intros ->. rewrite app_empty_l in Hu. rewrite Hu in Hzero, Hbody.
    injection Hbody as -> _. done. }
  pose proof (Hpos u (String c EmptyString) Hu Hne ltac:(done)) as Hu_pos.
  rewrite Hu, depth_of_app in Hzero. cbn in Hzero.
  destruct (decide (c = "["%char)) as [->|Hc1]; [lia|].
  destruct (decide (c = "]"%char)) as [->|Hc2]; [|lia].
  exists u. split_and!; [done|lia|].
  intros u1 u2 Hsplit.
  pose proof (Hpos (u1 +:+ String "]"%char EmptyString) (u2 +:+ String "]"%char EmptyString)) as H.
  rewrite depth_of_app in H. cbn in H.
  assert (0 < depth_of u1 + (-1 + 0)); [|lia].
  apply H.
  - rewrite Hu, Hsplit. by rewrite !app_assoc_s, !app_String.
  - by destruct u1.
  - by destruct u2.
Qed.

(** X12.  From the opening bracket at [arrayStart] on, [parseLeaguePage]
    takes the text up to the bracket that closes it: when a bracketed block
    starts there, [rawJson] is exactly that block, whatever text comes
    before and after; when the bracket is never closed, it is the rest of
    the page.  With the marker found at [k] and the first opening bracket
    from [k] on at the start of a block, that block is the text that is
    decoded and then parsed. *)
Theorem rawJson_spec (pre b rest : string) :
  (block b → scraper.rawJson (pre +:+ b +:+ rest) (String.length pre) = b) ∧
  ((∀ u1 u2, b = u1 +:+ String "]"%char u2 → depth_of u1 ≠ 1) →
   scraper.rawJson (pre +:+ b) (String.length pre) = b) ∧
  (block b →
   ∀ k, String.index 0 scraper.members_marker (pre +:+ b +:+ rest) = Some k →
        String.index k "[" (pre +:+ b +:+ rest) = Some (String.length pre) →
        scraper.members_rawJson (pre +:+ b +:+ rest) = Some b).
Proof.
  assert (block b → scraper.rawJson (pre +:+ b +:+ rest) (String.length pre) = b) as Hblock.
  { intros Hb. destruct (block_shape b Hb) as (u & -> & Hd & Hopen).
    unfold scraper.rawJson. rewrite string_drop_app.
    rewrite app_assoc_s, app_String, app_empty_l.
    rewrite walk_through by done. rewrite decide_True by lia.
    rewrite substring_skip.
    replace (S (String.length pre + String.length u) - String.length pre)%nat
      with (String.length (u +:+ String "]"%char EmptyString))
      by (rewrite length_app_s; cbn; lia).
    rewrite <- (app_empty_l rest), <- app_String, <- app_assoc_s.
    apply substring_take. }
  split_and!.
  - exact Hblock.
  - intros Hopen. unfold scraper.rawJson. rewrite string_drop_app.
    rewrite walk_unclosed.
    + rewrite substring_skip. apply substring_all. lia.
    + intros u1 u2 Hs. specialize (Hopen u1 u2 Hs). lia.
  - intros Hb k Hk Ha. unfold scraper.members_rawJson. rewrite Hk, Ha.
    by rewrite Hblock.
Qed.

Lemma sample_block : block "[{id:[1]}]".
Proof.
  split_and!; [by eexists|reflexivity|].
  intros p q Hpq Hp Hq.
  do 11 (destruct p as [|? p];
         [first [done
                | rewrite app_empty_l in Hpq; by subst q
                | vm_compute; reflexivity ]
         | rewrite app_String in Hpq;
           first [discriminate Hpq
                 | injection Hpq as <- Hpq ] ]).
  all: try (destruct p; discriminate Hpq).
Qed.

Lemma rawJson_spec_witness :
  scraper.members_rawJson members_page = Some "[{id:[1]}]" ∧
  scraper.rawJson "ab[c[d]e" 2 = "[c[d]e".
Proof.
  destruct (rawJson_spec ("<div x-data='{" +:+ scraper.members_marker +:+ " ")
              "[{id:[1]}]" ", x: [2]}'></div>") as (_ & _ & H3).
  destruct (rawJson_spec "ab" "[c[d]e" EmptyString) as (_ & H2 & _).
  split.
  - apply (H3 sample_block 14%nat); vm_compute; reflexivity.
  - apply H2. intros u1 u2 Hu.
    do 7 (destruct u1 as [|? u1];
          [first [discriminate Hu | vm_compute; discriminate]
          | rewrite app_String in Hu;
            first [discriminate Hu | injection Hu as <- Hu]]).
    all: try (destruct u1; discriminate Hu).
Defined.

(** ** Decoding the Alpine data *)

Lemma replace_fuel_clean (fuel : nat) (pat rep s : string) :
  scraper.includes pat s = false → scraper.replace_fuel fuel pat rep s = s.
Proof.
  revert s. induction fuel as [|fuel IH]; intros s Hclean; [done|].
  destruct s as [|c s]; [done|]. cbn [scraper.replace_fuel].
  cbn [scraper.includes] in Hclean.
  destruct (scraper.strip_prefix pat (String c s)); [done|].
  by rewrite IH.
Qed.

Lemma replace_fuel_length (fuel : nat) (pat rep s : string) :
  (String.length rep ≤ String.length pat)%nat →
  (String.length (scraper.replace_fuel fuel pat rep s) ≤ String.length s)%nat.
Proof.
  intros Hlen. revert s. induction fuel as [|fuel IH]; intros s; [done|].
  destruct s as [|c s]; [done|]. cbn [scraper.replace_fuel].
  destruct (scraper.strip_prefix pat (String c s)) as [rest|] eqn:E.
  - apply strip_prefix_Some in E. rewrite E.
    rewrite !length_app_s. specialize (IH rest). lia.
  - cbn. specialize (IH s). lia.
Qed.

Lemma strip_prefix_length (pat s rest : string) :
  scraper.strip_prefix pat s = Some rest →
  String.length s = (String.length pat + String.length rest)%nat.
Proof. intros H%strip_prefix_Some. subst s. apply length_app_s. Qed.

Lemma replace_fuel_enough (pat rep : string) (f1 f2 : nat) (s : string) :
  pat ≠ EmptyString → (String.length s ≤ f1)%nat → (String.length s ≤ f2)%nat →
  scraper.replace_fuel f1 pat rep s = scraper.replace_fuel f2 pat rep s.
Proof.
  intros Hpat. revert f2 s. induction f1 as [|f1 IH]; intros f2 s H1 H2.
  - destruct s; [|cbn in H1; lia]. by destruct f2.
  - destruct f2 as [|f2]; [destruct s; [done|cbn in H2; lia]|].
    destruct s as [|c s]; [done|]. cbn [scraper.replace_fuel].
    destruct (scraper.strip_prefix pat (String c s)) as [rest|] eqn:E.
    + apply strip_prefix_length in E. cbn in E, H1, H2.
      assert (0 < String.length pat)%nat by (destruct pat; [done|cbn; lia]).
      f_equal. apply IH; lia.
    + f_equal. cbn in H1, H2. apply IH; lia.
Qed.

Lemma replace_all_cons (pat rep : string) (c : ascii) (s : string) :
  pat ≠ EmptyString →
  scraper.replace_all pat rep (String c s)
  = match scraper.strip_prefix pat (String c s) with
    | Some rest => rep +:+ scraper.replace_all pat rep rest
    | None => String c (scraper.replace_all pat rep s)
    end.
Proof.
  intros Hpat. unfold scraper.replace_all. cbn [String.length scraper.replace_fuel].
  destruct (scraper.strip_prefix pat (String c s)) as [rest|] eqn:E.
  - f_equal. apply strip_prefix_length in E. cbn in E.
    apply replace_fuel_enough; [done| |done].
    assert (0 < String.length pat)%nat by (destruct pat; [done|cbn; lia]). lia.
  - done.
Qed.

Lemma replace_all_hit (pat rep s : string) :
  pat ≠ EmptyString →
  scraper.replace_all pat rep (pat +:+ s) = rep +:+ scraper.replace_all pat rep s.
Proof.
  intros Hpat. destruct pat as [|p0 pat]; [done|].
  rewrite app_String, replace_all_cons by done.
  by rewrite <- app_String, strip_prefix_app.
Qed.

(** A text without the first character of the pattern is copied. *)
Lemma replace_all_copy (p0 : ascii) (pat rep a s : string) :
  scraper.includes (String p0 EmptyString) a = false →
  scraper.replace_all (String p0 pat) rep (a +:+ s)
  = a +:+ scraper.replace_all (String p0 pat) rep s.
Proof.
  intros Hclean. induction a as [|c a IH]; [done|].
  cbn [scraper.includes scraper.strip_prefix] in Hclean.
  rewrite !app_String, replace_all_cons by done.
  cbn [scraper.strip_prefix].
  destruct (decide (p0 = c)) as [->|Hne]; [done|].
  f_equal. apply IH. by destruct a.
Qed.

Lemma replace_all_clean (pat rep s : string) :
  scraper.includes pat s = false → scraper.replace_all pat rep s = s.
Proof. apply replace_fuel_clean. Qed.

Lemma replace_all_length (pat rep s : string) :
  (String.length rep ≤ String.length pat)%nat →
  (String.length (scraper.replace_all pat rep s) ≤ String.length s)%nat.
Proof. apply replace_fuel_length. Qed.

(** X13.  [decodeAlpineJson] copies every stretch of text that has neither
    an ampersand nor a backslash, turns [&#34;] into a double quote and
    [&amp;] into an ampersand, and goes on decoding behind it.  A text that
    holds none of the three sequences it looks for comes back unchanged,
    and no text comes back longer. *)
Theorem decodeAlpineJson_spec (a s : string) :
  (scraper.includes "&" a = false → scraper.includes "\" a = false →
   scraper.decodeAlpineJson (a +:+ s) = a +:+ scraper.decodeAlpineJson s) ∧
  scraper.decodeAlpineJson ("&#34;" +:+ s) = scraper.quote +:+ scraper.decodeAlpineJson s ∧
  scraper.decodeAlpineJson ("&amp;" +:+ s) = "&" +:+ scraper.decodeAlpineJson s ∧
  (scraper.includes "&#34;" s = false →
   scraper.includes "\u0026" s = false →
   scraper.includes "&amp;" s = false →
   scraper.decodeAlpineJson s = s) ∧
  (String.length (scraper.decodeAlpineJson s) ≤ String.length s)%nat.
Proof.
  unfold scraper.decodeAlpineJson. split_and!.
  - intros H1 H2. by rewrite !replace_all_copy by done.
  - rewrite replace_all_hit by done.
    rewrite (replace_all_copy _ _ _ scraper.quote) by done.
    by rewrite (replace_all_copy _ _ _ scraper.quote) by done.
  - assert (scraper.replace_all "&#34;" scraper.quote ("&amp;" +:+ s)
            = "&amp;" +:+ scraper.replace_all "&#34;" scraper.quote s) as ->.
    { change ("&amp;" +:+ s) with (String "&" ("amp;" +:+ s)).
      rewrite replace_all_cons by done.
      change (scraper.strip_prefix "&#34;" (String "&" ("amp;" +:+ s))) with (@None string).
      by rewrite (replace_all_copy _ _ _ "amp;") by done. }
    rewrite (replace_all_copy _ _ _ "&amp;") by done.
    by rewrite replace_all_hit.
  - intros H1 H2 H3. rewrite (replace_all_clean "&#34;") by done.
    rewrite (replace_all_clean "\u0026") by done.
    by rewrite (replace_all_clean "&amp;").
  - etrans; [apply replace_all_length; cbn; lia|].
    etrans; [apply replace_all_length; cbn; lia|].
    apply replace_all_length; cbn; lia.
Qed.

Lemma decodeAlpineJson_spec_witness :
  scraper.decodeAlpineJson "[{name:&#34;Ann&#34;}]"
  = "[{name:" +:+ scraper.quote +:+ "Ann" +:+ scraper.quote +:+ "}]".
Proof.
  destruct (decodeAlpineJson_spec "[{name:" "&#34;Ann&#34;}]") as (H1 & _).
  change "[{name:&#34;Ann&#34;}]" with ("[{name:" +:+ "&#34;Ann&#34;}]").
  rewrite H1 by reflexivity. reflexivity.
Defined.

(** ** The [/setleague] command *)

(** X14.  [/setleague] refuses an address that does not contain
    [musicleague.com] and changes nothing.  Any other address is stored as
    the league address of the guild before anything is fetched, and it
    stays stored when no league id is found in it or the fetch fails; the
    reminder channel of the guild, the other guilds, the reminders and the
    timers are left alone.  The command reports success only when a league
    id was found and the fetch went through. *)
Theorem setleague_spec (g url : string) (net : option string) (w : world) :
  let res := bot.setleague g url net w in
  (scraper.includes "musicleague.com" url = false → res = (bot.NotMusicLeagueUrl, w)) ∧
  (scraper.includes "musicleague.com" url = true →
     (storage.getGuildConfig g res.2 ≫= leagueUrl) = Some url ∧
     (storage.getGuildConfig g res.2 ≫= notifyChannelId)
       = (storage.getGuildConfig g w ≫= notifyChannelId) ∧
     (∀ g', g' ≠ g → storage.getGuildConfig g' res.2 = storage.getGuildConfig g' w) ∧
     reminders_json res.2 = reminders_json w ∧
     timeouts res.2 = timeouts w ∧
     activeTimers res.2 = activeTimers w ∧
     (res.1 = bot.LeagueSet
      ↔ net = None ∧ ∃ b, scraper.fetchLeague_base url = inr b) ∧
     (∀ m, scraper.fetchLeague_base url = inl m → res.1 = bot.SavedButNotFetched m)).
Proof.
  cbn zeta. unfold bot.setleague. split.
  - by intros ->.
  - intros ->. cbn [negb].
    unfold storage.setGuildConfig, storage.getGuildConfig, Date_now.
    destruct (scraper.fetchLeague_base url) as [m|b] eqn:E; [|destruct net as [m|]];
      cbn; rewrite ?lookup_insert_eq; cbn.
    + split_and!; try done.
      * by destruct (guilds_json w !! g).
      * intros g' Hne. by apply lookup_insert_ne.
      * split; [done|]. by intros [_ [? ?]].
      * by intros ? [= ->].
    + split_and!; try done.
      * by destruct (guilds_json w !! g).
      * intros g' Hne. by apply lookup_insert_ne.
      * split; [done|]. by intros [? _].
    + split_and!; try done.
      * by destruct (guilds_json w !! g).
      * intros g' Hne. rewrite !lookup_insert_ne by done. done.
      * split; [|done]. intros _. eauto.
Qed.

Lemma setleague_spec_witness :
  let res := bot.setleague "guild-1" "musicleague.com" None
               (bot.setchannel "guild-1" "reminders" (empty_world Absent (clock_of [1000]))) in
  res.1 = bot.SavedButNotFetched "Could not extract league ID from URL." ∧
  storage.getGuildConfig "guild-1" res.2
    = Some {| notifyChannelId := Some "reminders"; leagueUrl := Some "musicleague.com" |}.
Proof.
  cbn zeta.
  destruct (setleague_spec "guild-1" "musicleague.com" None
              (bot.setchannel "guild-1" "reminders" (empty_world Absent (clock_of [1000]))))
    as [_ H].
  destruct (H eq_refl) as (_ & _ & _ & _ & _ & _ & _ & H8).
  split; [apply H8; reflexivity|reflexivity].
Defined.

(** ** A restart between registration and delivery *)

Lemma readings_before_app (now : Z) (l l' : list reminder) (n : nat) :
  (n ≤ length l)%nat → readings_before now (l ++ l') n = readings_before now l n.
Proof. intros Hn. unfold readings_before. by rewrite take_app_le. Qed.

Lemma readings_before_all (now : Z) (l : list reminder) :
  readings_before now l (length l) = length (filter (λ r, now < remindAt r) l).
Proof. unfold readings_before. by rewrite firstn_all. Qed.

Lemma dropped_app (now : Z) (c : nat → Z) (t0 : nat) (l : list reminder)
    (r : reminder) (n : nat) (x : reminder) :
  dropped now c t0 (l ++ [r]) n x →
  dropped now c t0 l n x ∨
  (x = r ∧ (remindAt r ≤ now ∨
            remindAt r ≤ c (t0 + length (filter (λ r, (now < remindAt r)%Z) l))%nat)).
Proof.
  intros [Hn Hd]. destruct (decide (n < length l)%nat) as [Hlt|Hge].
  - left. split.
    + by rewrite lookup_app_l in Hn.
    + by rewrite readings_before_app in Hd by lia.
  - right. rewrite lookup_app_r in Hn by lia.
    destruct (n - length l)%nat as [|m] eqn:E; [|by destruct m].
    cbn in Hn. injection Hn as <-. split; [done|].
    assert (n = length l) as -> by lia.
    by rewrite readings_before_app, readings_before_all in Hd by lia.
Qed.

(** X15.  A reminder survives a restart.  After [addReminder] has stored
    and armed it, the process stops (its timeouts are lost) and starts
    again; [restoreReminders] then arms a new timeout for it and keeps it
    under its id, and its record is still stored, as long as its time is
    ahead of the clock reading taken for it by the recovery and no stored
    record that the recovery drops (past due, or overtaken by the clock)
    has its id.  What the clock does for the other records plays no part.
    Nothing is delivered by the recovery. *)
Theorem survives_restart (MAX_DELAY : Z) (uuid : string) (o : opts) (w : world) :
  let r := scheduler.make_reminder (String.substring 0 8 uuid) o in
  let all := storage.getAllReminders (reminders_json w) in
  let now := clock w (S (ticks w)) in
  let reading :=
    clock w (S (S (ticks w)) + length (filter (λ x, (now < remindAt x)%Z) all))%nat in
  let w2 := (scheduler.restoreReminders MAX_DELAY
               (restart (scheduler.addReminder MAX_DELAY uuid o w).2)).2 in
  clock w (ticks w) < remindAt r →
  now < remindAt r →
  reading < remindAt r →
  (∀ n x, dropped now (clock w) (S (S (ticks w))) all n x → id x ≠ id r) →
  timeouts (restart (scheduler.addReminder MAX_DELAY uuid o w).2) = ∅ ∧
  r ∈ storage.getAllReminders (reminders_json w2) ∧
  (∃ h, activeTimers w2 !! id r = Some h ∧
        timeouts w2 !! h = Some (timer_for MAX_DELAY reading r)) ∧
  attempts w2 = attempts w.
Proof.
  intros r all now reading w2 Hfut Hnow Hread Hfresh. subst w2.
  rewrite addReminder_armed by done. cbn [snd]. fold r.
  remember (restart _) as w1 eqn:Hw1.
  assert (storage.getAllReminders (reminders_json w1) = all ++ [r]) as Hall.
  { subst w1. cbn. apply getAll_addReminder. }
  assert (clock w1 = clock w) as Hc by by subst w1.
  assert (ticks w1 = S (ticks w)) as Ht by by subst w1.
  assert (attempts w1 = attempts w) as Ha by by subst w1.
  assert (timeouts w1 = ∅) as Hto by by subst w1.
  clear Hw1.
  assert ((all ++ [r]) !! length all = Some r) as Hpos.
  { rewrite lookup_app_r by lia. by rewrite Nat.sub_diag. }
  rewrite restoreReminders_unfold. cbn [snd].
  rewrite Hall, Hc, Ht. fold now.
  cbn [reminders_json activeTimers timeouts attempts set_console].
  split_and!.
  - exact Hto.
  - apply restore_loop_store_exact. cbn [reminders_json set_ticks clock ticks].
    rewrite Hall, Hc. split.
    + apply elem_of_app. right. apply list_elem_of_here.
    + intros n x [Hd|[-> Hd]]%dropped_app.
      * intros Heq. by apply (Hfresh n x Hd).
      * exfalso. subst reading. destruct Hd; lia.
  - destruct (restore_loop_position MAX_DELAY now (all ++ [r]) 0 0
                (set_ticks (S (S (ticks w))) w1) (length all) r Hpos Hnow) as [Hp _].
    cbn zeta in Hp. cbn [clock ticks set_ticks] in Hp.
    rewrite Hc, readings_before_app, readings_before_all in Hp by lia.
    destruct (Hp Hread) as (h & _ & Hh & Htr).
    exists h. split; [|exact Hh]. apply Htr.
    intros n' r' Hlt Hn'. apply lookup_lt_Some in Hn'.
    rewrite length_app in Hn'. cbn in Hn'. lia.
  - destruct (restore_loop_frame MAX_DELAY now (all ++ [r]) 0 0
                (set_ticks (S (S (ticks w))) w1)) as (_ & _ & _ & H4 & _).
    cbn zeta in H4. by rewrite H4.
Qed.

(** D is overtaken by the clock during the recovery and A is past due; the
    new reminder is stored, tracked and pending all the same. *)
Lemma survives_restart_witness :
  let w2 := (scheduler.restoreReminders scheduler.MAX_DELAY
               (restart (scheduler.addReminder scheduler.MAX_DELAY uuid_1
                           (sample_opts "guild-1" 5000) world_restart).2)).2 in
  sample "deadbeef" "guild-1" 5000 ∈ storage.getAllReminders (reminders_json w2) ∧
  storage.getAllReminders (reminders_json w2) = [sample "deadbeef" "guild-1" 5000] ∧
  (∃ h, activeTimers w2 !! "deadbeef" = Some h ∧
        timeouts w2 !! h
        = Some (timer_for scheduler.MAX_DELAY 3000 (sample "deadbeef" "guild-1" 5000))).
Proof.
  cbn zeta.
  destruct (survives_restart scheduler.MAX_DELAY uuid_1 (sample_opts "guild-1" 5000)
              world_restart) as (_ & H2 & H3 & _).
  - reflexivity.
  - reflexivity.
  - reflexivity.
  - intros [|[|n]] x [Hn Hd]; vm_compute in Hn; try discriminate;
      injection Hn as <-; vm_compute; discriminate.
  - split_and!; [exact H2|reflexivity|exact H3].
Defined.

(** ** One timer for an id *)












(** ** Recovery of a store that holds [null] *)

Lemma restore_values_null (MAX_DELAY now : Z) (vs : list value) (restored : nat) (w : world) :
  Null ∈ vs →
  let res := restore_values MAX_DELAY now vs restored w in
  res.1.1 = ThrowsTypeError ∧
  console res.2 = console w ∧ attempts res.2 = attempts w ∧
  reminders_json res.2 = reminders_json w ∧
  (∀ h, (h < next_handle w)%nat → timeouts res.2 !! h = timeouts w !! h) ∧
  ∃ n : nat,
    res.1.2 = (restored + n)%nat ∧
    next_handle res.2 = (next_handle w + n)%nat ∧
    (∀ h, (next_handle w + n ≤ h)%nat → timeouts res.2 !! h = timeouts w !! h) ∧
    (∀ k, (k < n)%nat →
       ∃ r, vs !! k = Some (Obj r) ∧ now < remindAt r ∧
            clock w (ticks w + k)%nat < remindAt r ∧
            timeouts res.2 !! (next_handle w + k)%nat
            = Some (timer_for MAX_DELAY (clock w (ticks w + k)%nat) r)) ∧
    (vs !! n = Some Null ∨
     ∃ r, vs !! n = Some (Obj r) ∧
          (remindAt r ≤ now ∨ remindAt r ≤ clock w (ticks w + n)%nat)).
Proof.
  revert restored w. induction vs as [|v vs IH]; intros restored w Hin.
  { by apply elem_of_nil in Hin. }
  destruct v as [r|].
  - apply elem_of_cons in Hin as [?|Hin]; [done|]. cbn [restore_values].
    destruct (decide (remindAt r ≤ now)) as [Hp|Hp].
    { cbn. split_and!; try done. exists 0%nat. split_and!.
      - lia.
      - lia.
      - done.
      - intros k Hk. lia.
      - right. exists r. split; [done|]. by left. }
    destruct (decide (remindAt r - clock w (ticks w) ≤ 0)) as [Ho|Ho].
    { cbn. split_and!; try done. exists 0%nat. split_and!.
      - lia.
      - lia.
      - done.
      - intros k Hk. lia.
      - right. exists r. split; [done|]. right. rewrite Nat.add_0_r. lia. }
    pose proof (scheduleTimer_armed MAX_DELAY r w ltac:(lia)) as Harm.
    set (w1 := scheduler.scheduleTimer MAX_DELAY r w) in *.
    assert (console w1 = console w) as C1 by by rewrite Harm.
    assert (attempts w1 = attempts w) as C2 by by rewrite Harm.
    assert (reminders_json w1 = reminders_json w) as C3 by by rewrite Harm.
    assert (next_handle w1 = S (next_handle w)) as C4 by by rewrite Harm.
    assert (clock w1 = clock w) as C5 by by rewrite Harm.
    assert (ticks w1 = S (ticks w)) as C6 by by rewrite Harm.
    assert (timeouts w1
            = <[next_handle w := timer_for MAX_DELAY (clock w (ticks w)) r]> (timeouts w))
      as C7 by by rewrite Harm.
    clearbody w1.
    destruct (IH (S restored) w1 Hin) as (H1 & H2 & H3 & H4 & H5 & n & H6 & H7 & Hb & H8 & H9).
    cbn zeta in *. rewrite C1 in H2. rewrite C2 in H3. rewrite C3 in H4.
    rewrite C4 in H5, H7, H8, Hb. rewrite C5, C6 in H8, H9.
    split_and!; try done.
    + intros h Hh. rewrite H5 by lia. rewrite C7. apply lookup_insert_ne. lia.
    + exists (S n). split_and!.
      * lia.
      * lia.
      * intros h Hh. rewrite Hb by lia. rewrite C7. apply lookup_insert_ne. lia.
      * intros [|k] Hk.
        -- exists r. rewrite !Nat.add_0_r. split_and!; [done|lia|lia|].
           rewrite H5 by lia. rewrite C7. apply lookup_insert_eq.
        -- destruct (H8 k ltac:(lia)) as (r' & E1 & E2 & E3 & E4).
           exists r'. cbn [lookup list_lookup].
           replace (ticks w + S k)%nat with (S (ticks w) + k)%nat by lia.
           replace (next_handle w + S k)%nat with (S (next_handle w) + k)%nat by lia.
           done.
      * cbn [lookup list_lookup].
        replace (ticks w + S n)%nat with (S (ticks w) + n)%nat by lia. done.
  - cbn. split_and!; try done. exists 0%nat. split_and!.
    + lia.
    + lia.
    + done.
    + intros k Hk. lia.
    + by left.
Qed.

(** X17.  A store that parses but holds [null] in place of a record is not
    read as empty, and the [null] is not skipped: the recovery ends in a
    [TypeError].  It stops at the first element that is [null], past due
    or overtaken by the clock; the records before that element have been
    armed, nothing is armed for the elements behind it, and neither the
    line with the counts nor anything else is written to the console. *)
Theorem restoreReminders_null (MAX_DELAY : Z) (vs : list value) (w : world) :
  Null ∈ vs →
  let now := clock w (ticks w) in
  let res := restoreReminders_values MAX_DELAY vs w in
  res.1 = ThrowsTypeError ∧
  console res.2 = console w ∧ attempts res.2 = attempts w ∧
  (∀ h, (h < next_handle w)%nat → timeouts res.2 !! h = timeouts w !! h) ∧
  ∃ n : nat,
    next_handle res.2 = (next_handle w + n)%nat ∧
    (∀ h, (next_handle w + n ≤ h)%nat → timeouts res.2 !! h = timeouts w !! h) ∧
    (∀ k, (k < n)%nat →
       ∃ r, vs !! k = Some (Obj r) ∧ now < remindAt r ∧
            clock w (S (ticks w) + k)%nat < remindAt r ∧
            timeouts res.2 !! (next_handle w + k)%nat
            = Some (timer_for MAX_DELAY (clock w (S (ticks w) + k)%nat) r)) ∧
    (vs !! n = Some Null ∨
     ∃ r, vs !! n = Some (Obj r) ∧
          (remindAt r ≤ now ∨ remindAt r ≤ clock w (S (ticks w) + n)%nat)).
Proof.
  intros Hin now res. subst res. unfold restoreReminders_values, Date_now.
  fold now.
  destruct (restore_values_null MAX_DELAY now vs 0 (set_ticks (S (ticks w)) w) Hin)
    as (H1 & H2 & H3 & _ & H5 & n & _ & H7 & Hb & H8 & H9).
  cbn zeta in *.
  destruct (restore_values MAX_DELAY now vs 0 (set_ticks (S (ticks w)) w))
    as [[c restored] w'].
  cbn [fst snd] in *. subst c. cbn [fst snd].
  split_and!; try done. exists n. split_and!; done.
Qed.

(** B is armed, then the pass stops at the [null]; A is never looked at. *)
Lemma restoreReminders_null_witness :
  let res := restoreReminders_values scheduler.MAX_DELAY values_BnA
               (empty_world Absent (clock_of [1000; 1001])) in
  res.1 = ThrowsTypeError ∧
  console res.2 = [] ∧
  timeouts res.2 !! 0%nat = Some (timer_for scheduler.MAX_DELAY 1001 reminder_B) ∧
  next_handle res.2 = 1%nat.
Proof.
  cbn zeta.
  destruct (restoreReminders_null scheduler.MAX_DELAY values_BnA
              (empty_world Absent (clock_of [1000; 1001])))
    as (H1 & H2 & _).
  - apply list_elem_of_further, list_elem_of_here.
  - split_and!; [exact H1|exact H2|vm_compute; reflexivity|vm_compute; reflexivity].
Defined.
